(** * FakeListRemote: the listing test double of the database remover

    A shallow embedding of [FakeListRemote] (the in-memory stand-in for the
    remote listing primitive) together with the properties the design
    document states about it.

    Conventions of the embedding.
    - A JavaScript string is a [string]; [key > startAfter] is the
      lexicographic comparison of code units, [String.ltb startAfter key].
    - The fake database is the tree the constructor documents: a leaf is an
      integer, an inner node is an object.  An object is the list of its own
      enumerable properties, in the order [Object.keys] reports them.
      [d[p]] reads an own property and, when there is none, the member the
      object inherits from [Object.prototype]; the built-in objects reached
      that way are those of the runtime, a [Realm].
    - A number is a value of the binary64 format.  The numbers at hand are
      integers; where the source adds them, the sum is rounded as the format
      rounds it ([Number.add]).
    - [listPath] is asynchronous only through its artificial delay; the one
      thing it observes of the clock is [latency = Date.now() - startTime],
      which is an explicit argument here.  A promise is its settled value. *)

From Stdlib Require Import List String Ascii ZArith NArith Lia Bool Sorted.
From Stdlib Require Import Permutation DecimalString.
Import ListNotations.

Open Scope string_scope.
Open Scope list_scope.
Open Scope Z_scope.

(** ** JavaScript strings *)

Module JsString.

(** [s.slice(1)]: everything after the first code unit. *)
Definition slice1 (s : string) : string :=
  match s with
  | EmptyString => EmptyString
  | String _ rest => rest
  end.

Definition is_slash (c : ascii) : bool := Ascii.eqb c "/"%char.

(** [s.split("/")]: the pieces between slashes; never the empty list. *)
Fixpoint split (s : string) : list string :=
  match s with
  | EmptyString => [EmptyString]
  | String c rest =>
      if is_slash c then EmptyString :: split rest
      else match split rest with
           | piece :: pieces => String c piece :: pieces
           | [] => [String c EmptyString]
           end
  end.

(** [segs.join("/")]. *)
Definition join (segs : list string) : string := String.concat "/" segs.

(** [a > b] on strings. *)
Definition gtb (a b : string) : bool := String.ltb b a.

(** [s !== ""]. *)
Definition nonempty (s : string) : bool := negb (String.eqb s "").

Definition lt (a b : string) : Prop := String.ltb a b = true.

(** No slash occurs in [s]. *)
Fixpoint slash_free (s : string) : bool :=
  match s with
  | EmptyString => true
  | String c rest => negb (is_slash c) && slash_free rest
  end.

End JsString.

(** ** JavaScript objects as ordered property lists *)

Module JsObject.

Section Props.
Context {V : Type}.

Definition props := list (string * V).

(** [o[k]] among own properties. *)
Fixpoint get (o : props) (k : string) : option V :=
  match o with
  | [] => None
  | (k', v) :: o' => if String.eqb k' k then Some v else get o' k
  end.

(** [Object.keys(o)]. *)
Definition keys (o : props) : list string := map fst o.

Definition digit (c : ascii) : option N :=
  let n := N_of_ascii c in
  if (48 <=? n)%N && (n <=? 57)%N then Some (n - 48)%N else None.

Fixpoint digits (acc : N) (s : string) : option N :=
  match s with
  | EmptyString => Some acc
  | String c rest =>
      match digit c with
      | Some d => digits (acc * 10 + d)%N rest
      | None => None
      end
  end.

(** The array index a property key denotes, if it is one: a canonical
    decimal numeral (no leading zero) below [2^32 - 1]. *)
Definition array_index (k : string) : option N :=
  match k with
  | EmptyString => None
  | String c rest =>
      match digit c with
      | Some 0%N => match rest with EmptyString => Some 0%N | _ => None end
      | Some d =>
          match digits d rest with
          | Some n => if (n <? 4294967295)%N then Some n else None
          | None => None
          end
      | None => None
      end
  end.

Fixpoint replace (k : string) (v : V) (o : props) : props :=
  match o with
  | [] => []
  | (k', v') :: o' =>
      if String.eqb k' k then (k', v) :: o' else (k', v') :: replace k v o'
  end.

(** Where a new array-index property goes: before the first property that
    is not an array index or has a larger index. *)
Fixpoint insert_index (i : N) (k : string) (v : V) (o : props) : props :=
  match o with
  | [] => [(k, v)]
  | (k', v') :: o' =>
      match array_index k' with
      | Some j => if (j <? i)%N then (k', v') :: insert_index i k v o'
                  else (k, v) :: o
      | None => (k, v) :: o
      end
  end.

(** Defining property [k] on [o]: an existing property keeps its place;
    a new array index is placed in ascending numeric order before all
    other keys; any other new key goes last. *)
Definition set (k : string) (v : V) (o : props) : props :=
  match get o k with
  | Some _ => replace k v o
  | None =>
      match array_index k with
      | Some i => insert_index i k v o
      | None => o ++ [(k, v)]
      end
  end.

(** The object literal [{ k1: v1, ..., kn: vn }]. *)
Definition literal (l : list (string * V)) : props :=
  fold_left (fun o kv => set (fst kv) (snd kv) o) l [].

End Props.

End JsObject.

(** ** The fake database *)

(** "Each leaf is an integer representing the subtree's size." *)
#[warnings="-register-all"] Inductive Node : Type :=
| Leaf (size : Z)
| Internal (children : list (string * Node)).

(** The built-in objects of the JavaScript runtime, as far as property
    access on a plain object can reach them: what a plain object inherits
    from [Object.prototype] under a key it does not own, and, for a built-in
    value [b], [typeof b === "number"], its truthiness, [b[p]] and
    [Object.keys(b)].  A missing member reads as [undefined], here [None].
    A read is one that yields a value: the two accessors that throw when
    read, [caller] and [arguments] of a built-in function, have no
    description here, and a path that reads one of them is not covered. *)
Class Realm : Type := mkRealm {
  Builtin : Type;
  inherited : string -> option Builtin;
  builtin_is_number : Builtin -> bool;
  builtin_truthy : Builtin -> bool;
  builtin_get : Builtin -> string -> option Builtin;
  builtin_keys : Builtin -> list string
}.

(** The values [_dataAtpath] can hold in [d]. *)
Inductive JsVal {realm : Realm} : Type :=
| JUndefined
| JNull
| JNode (n : Node)
| JBuiltin (b : Builtin).

(** A part of the standard built-in objects, the one the examples reach:
    the members every plain object inherits from [Object.prototype], the
    name and the length of those functions, and primitive strings with
    their indices.  The other members of the standard objects are left
    out: in this runtime they read as [undefined]. *)
Inductive StdBuiltin : Type :=
| ObjectPrototype
| BuiltinFunction (name : string) (arity : Z)
| PrimitiveString (s : string)
| PrimitiveNumber (n : Z).

Definition objectPrototypeMembers : list (string * StdBuiltin) :=
  [("constructor", BuiltinFunction "Object" 1);
   ("__defineGetter__", BuiltinFunction "__defineGetter__" 2);
   ("__defineSetter__", BuiltinFunction "__defineSetter__" 2);
   ("hasOwnProperty", BuiltinFunction "hasOwnProperty" 1);
   ("__lookupGetter__", BuiltinFunction "__lookupGetter__" 1);
   ("__lookupSetter__", BuiltinFunction "__lookupSetter__" 1);
   ("isPrototypeOf", BuiltinFunction "isPrototypeOf" 1);
   ("propertyIsEnumerable", BuiltinFunction "propertyIsEnumerable" 1);
   ("toString", BuiltinFunction "toString" 0);
   ("valueOf", BuiltinFunction "valueOf" 0);
   ("toLocaleString", BuiltinFunction "toLocaleString" 0)].

(** The decimal numeral of an index. *)
Definition decimal (i : nat) : string :=
  NilZero.string_of_uint (Nat.to_uint i).

(** The indices of a string, as [Object.keys] lists them. *)
Definition stringIndices (s : string) : list string :=
  map decimal (seq 0 (String.length s)).

(** [s[p]] for a primitive string: a character at an index, the length. *)
Definition stringMember (s p : string) : option StdBuiltin :=
  if String.eqb p "length"
  then Some (PrimitiveNumber (Z.of_nat (String.length s)))
  else
    match find (fun i => String.eqb (decimal i) p)
            (seq 0 (String.length s)) with
    | Some i =>
        match String.get i s with
        | Some c => Some (PrimitiveString (String c EmptyString))
        | None => None
        end
    | None => None
    end.

Definition stdMember (b : StdBuiltin) (p : string) : option StdBuiltin :=
  match b with
  | ObjectPrototype => JsObject.get objectPrototypeMembers p
  | BuiltinFunction name arity =>
      if String.eqb p "name" then Some (PrimitiveString name)
      else if String.eqb p "length" then Some (PrimitiveNumber arity)
      else None
  | PrimitiveString s => stringMember s p
  | PrimitiveNumber _ => None
  end.

(** The runtime of the examples.  A plain object inherits the members of
    [Object.prototype], and [__proto__] reads as that prototype. *)
#[global] Instance standardRealm : Realm :=
  mkRealm StdBuiltin
    (fun p => if String.eqb p "__proto__" then Some ObjectPrototype
              else JsObject.get objectPrototypeMembers p)
    (fun b => match b with PrimitiveNumber _ => true | _ => false end)
    (fun b => match b with
              | PrimitiveString s => JsString.nonempty s
              | PrimitiveNumber n => negb (n =? 0)
              | _ => true
              end)
    stdMember
    (fun b => match b with
              | PrimitiveString s => stringIndices s
              | _ => []
              end).

(** A settled promise. *)
Inductive Promise (A : Type) : Type :=
| Resolved (value : A)
| Rejected (message : string).
Arguments Resolved {A} value.
Arguments Rejected {A} message.

Record FakeListRemote : Type := mkFakeListRemote {
  data : Node;
  delay : Z
}.

(** [new FakeListRemote(data)]. *)
Definition constructor (d : Node) : FakeListRemote :=
  {| data := d; delay := 0 |}.


(** Truthiness of [d]: [undefined], [null] and [0] are falsy. *)
Definition truthy {realm : Realm} (d : JsVal) : bool :=
  match d with
  | JNode (Leaf n) => negb (n =? 0)
  | JNode (Internal _) => true
  | JBuiltin b => builtin_truthy b
  | JUndefined | JNull => false
  end.

(** [Object.keys(d)] for a truthy [d]: a number has no own keys. *)
Definition Object_keys {realm : Realm} (d : JsVal) : list string :=
  match d with
  | JNode (Internal o) => JsObject.keys o
  | JBuiltin b => builtin_keys b
  | _ => []
  end.

(** One iteration of the loop of [_dataAtpath]: for a truthy [d] and a
    non-empty [p], a number gives [null] and anything else gives [d[p]], an
    own property first, an inherited member otherwise. *)
Definition descend {realm : Realm} (d : JsVal) (p : string) : JsVal :=
  if truthy d && JsString.nonempty p then
    match d with
    | JNode (Leaf _) => JNull
    | JNode (Internal o) =>
        match JsObject.get o p with
        | Some child => JNode child
        | None =>
            match inherited p with
            | Some b => JBuiltin b
            | None => JUndefined
            end
        end
    | JBuiltin b =>
        if builtin_is_number b then JNull
        else match builtin_get b p with
             | Some b' => JBuiltin b'
             | None => JUndefined
             end
    | other => other
    end
  else d.

Definition _dataAtpath {realm : Realm} (self : FakeListRemote) (path : string)
  : JsVal :=
  let splitedPath := JsString.split (JsString.slice1 path) in
  fold_left descend splitedPath (JNode (data self)).

(** [arr.slice(0, n)] for an integer [n]; a negative [n] counts from the end. *)
Definition slice0 {A : Type} (arr : list A) (n : Z) : list A :=
  let len := Z.of_nat (List.length arr) in
  let final := if n <? 0 then Z.max (len + n) 0 else Z.min n len in
  firstn (Z.to_nat final) arr.

(** [timeout && latency >= timeout]. *)
Definition timed_out (latency : Z) (timeout : option Z) : bool :=
  match timeout with
  | Some t => negb (t =? 0) && (latency >=? t)
  | None => false
  end.

(** [if (startAfter) keys = keys.filter((key) => key > startAfter)]. *)
Definition apply_startAfter (startAfter : option string) (keys : list string)
  : list string :=
  match startAfter with
  | Some s =>
      if JsString.nonempty s then filter (fun key => JsString.gtb key s) keys
      else keys
  | None => keys
  end.

Definition listPath {realm : Realm} (self : FakeListRemote) (latency : Z)
    (path : string) (numChildren : Z)
    (startAfter : option string) (timeout : option Z)
  : Promise (list string) :=
  if timed_out latency timeout then Rejected "timeout"
  else
    let d := _dataAtpath self path in
    if truthy d then
      let keys := Object_keys d in
      let keys := apply_startAfter startAfter keys in
      let keys := slice0 keys numChildren in
      Resolved keys
    else Resolved [].

(** The store of the test suite: [{ 1: 1, 2: 2, 3: 3, 4: 4 }]. *)
Definition fakeDb : FakeListRemote :=
  constructor
    (Internal (JsObject.literal
       [("1", Leaf 1); ("2", Leaf 2); ("3", Leaf 3); ("4", Leaf 4)])).

(** ** Views of a listing used by the statements *)

(** The keys [listPath] starts from: [Object.keys] of what the path holds,
    when that is truthy. *)
Definition own_keys {realm : Realm} (self : FakeListRemote) (path : string)
  : list string :=
  let d := _dataAtpath self path in
  if truthy d then Object_keys d else [].

(** The non-empty segments of a path. *)
Definition segments (path : string) : list string :=
  filter JsString.nonempty (JsString.split (JsString.slice1 path)).

(** The path written with exactly one slash before each non-empty segment. *)
Definition normalize (path : string) : string :=
  String "/" (JsString.join (segments path)).

(** Where a sequence of non-empty segments leads in the tree, if anywhere. *)
Fixpoint lookup_path (segs : list string) (t : Node) : option Node :=
  match segs with
  | [] => Some t
  | s :: rest =>
      match t with
      | Leaf _ => None
      | Internal o =>
          match JsObject.get o s with
          | Some child => lookup_path rest child
          | None => None
          end
      end
  end.

(** [page[page.length - 1]], when the page has a key. *)
Fixpoint last_key (page : list string) : option string :=
  match page with
  | [] => None
  | [k] => Some k
  | _ :: rest => last_key rest
  end.

Definition strictly_increasing (ks : list string) : Prop :=
  StronglySorted JsString.lt ks.

(** ** Paging through one path *)

Section CursorDiscipline.

Context {realm : Realm}.
Variable self : FakeListRemote.
Variable latency : Z.
Variable path : string.
Variable numChildren : Z.

(** One listing call without a timeout, as the keys it yields. *)
Definition page (cursor : option string) : list string :=
  match listPath self latency path numChildren cursor None with
  | Resolved ks => ks
  | Rejected _ => []
  end.

(** Modelled from the spec: the cursor handed to the next call is the
    previous page's last key; a page without keys leaves it unchanged. *)
Definition next_cursor (cursor : option string) (pg : list string)
  : option string :=
  match last_key pg with
  | Some k => Some k
  | None => cursor
  end.

(** Modelled from the spec: the cursor of the [i]-th call, absent on the
    first one. *)
Fixpoint cursor_at (i : nat) : option string :=
  match i with
  | O => None
  | S i' => next_cursor (cursor_at i') (page (cursor_at i'))
  end.

Definition nth_page (i : nat) : list string := page (cursor_at i).

(** The keys visited by the first [m] calls, in order of arrival. *)
Definition visited (m : nat) : list string :=
  List.concat (map nth_page (seq 0 m)).

End CursorDiscipline.

(** ** The chunked delete orchestrator *)

(** Modelled from the spec: the orchestrator, the delete transport and the
    retry policy are not among the sources at hand; this module follows the
    design document (data model, component design of the transport, the
    policy and the per-path algorithm). *)
Module Orchestrator.

(** Modelled from the spec: a path is an ordered sequence of segments. *)
Definition Path := list string.

(** Modelled from the spec: the error taxonomy. *)
Inductive ErrorKind : Type :=
| TimeoutError
| TransientServiceError
| PermissionError
| NotFoundError.

Inductive FailureClass : Type := Retryable | Structural | Fatal.

(** Modelled from the spec: [deleteSubtree(path)] yields success,
    [PayloadTooLarge] or an error of some kind. *)
Inductive DeleteResult : Type :=
| Success
| PayloadTooLarge
| DeleteError (kind : ErrorKind).

Inductive ListResult : Type :=
| Keys (pg : list string)
| ListError (kind : ErrorKind).

(** Modelled from the spec: the failure taxonomy of the retry policy. *)
Definition classify_error (k : ErrorKind) : FailureClass :=
  match k with
  | TimeoutError | TransientServiceError => Retryable
  | PermissionError | NotFoundError => Fatal
  end.

(** Modelled from the spec: every failure of a delete falls in one class. *)
Definition classify_delete (r : DeleteResult) : option FailureClass :=
  match r with
  | Success => None
  | PayloadTooLarge => Some Structural
  | DeleteError k => Some (classify_error k)
  end.

Record Config : Type := mkConfig {
  maxAttempts : nat;
  pageSize : nat
}.

(** Modelled from the spec: how far the Cursor Pager has come with a
    fanned-out path: still paging from a cursor, exhausted by a short page,
    or given up after a failure. *)
Inductive Enumeration : Type :=
| Paging (cursor : option string) (attempt : nat)
| Exhausted (cursor : option string)
| Aborted (cursor : option string).

(** Modelled from the spec: the states of a [DeleteJob]. *)
Inductive JobState : Type :=
| Pending
| Attempting
| Succeeded
| FannedOut (e : Enumeration)
| Failed.

Record DeleteJob : Type := mkJob {
  jpath : Path;
  attempts : nat;
  state : JobState
}.

(** The remote calls of a run, each with the job that issued it. *)
Inductive Event : Type :=
| DeleteCall (job : nat) (p : Path) (r : DeleteResult)
| ListCall (job : nat) (p : Path) (cursor : option string) (r : ListResult).

(** A run in progress: the table of jobs (a job is known by its index),
    the failure set, and the calls made so far, latest first. *)
Record Run : Type := mkRun {
  jobs : list DeleteJob;
  failures : list Path;
  trace : list Event
}.

(** What happens next: a pending job is picked up, or a remote call of a
    job comes back with a result.  The order is not fixed by the design. *)
Inductive Choice : Type :=
| Start (job : nat)
| DeleteReturns (job : nat) (r : DeleteResult)
| ListReturns (job : nat) (r : ListResult).

Definition set_job (j : nat) (job : DeleteJob) (js : list DeleteJob)
  : list DeleteJob :=
  firstn j js ++ job :: skipn (S j) js.

Definition child_job (parent : Path) (k : string) : DeleteJob :=
  {| jpath := parent ++ [k]; attempts := 0; state := Pending |}.

Definition after_cursor (cursor : option string) (k : string) : bool :=
  match cursor with
  | Some c => JsString.gtb k c
  | None => true
  end.

Fixpoint increasing (ks : list string) : bool :=
  match ks with
  | [] => true
  | k :: rest => forallb (fun k' => JsString.gtb k' k) rest && increasing rest
  end.

(** Modelled from the spec: what the Listing Client promises of a page:
    keys strictly after the cursor, strictly increasing, at most the page
    size. *)
Definition conforming (cfg : Config) (cursor : option string)
    (pg : list string) : bool :=
  forallb (after_cursor cursor) pg && increasing pg
  && (List.length pg <=? pageSize cfg)%nat.

Definition advance (cursor : option string) (pg : list string)
  : option string :=
  match last_key pg with
  | Some k => Some k
  | None => cursor
  end.

(** Modelled from the spec: step 3 to 6 of the per-path algorithm, the
    outcome of a delete attempt. *)
Definition on_delete (cfg : Config) (job : DeleteJob) (r : DeleteResult)
  : DeleteJob * list Path :=
  match classify_delete r with
  | None => (mkJob (jpath job) (attempts job) Succeeded, [])
  | Some Structural =>
      (mkJob (jpath job) (attempts job) (FannedOut (Paging None 0)), [])
  | Some Retryable =>
      if (S (attempts job) <? maxAttempts cfg)%nat
      then (mkJob (jpath job) (S (attempts job)) Pending, [])
      else (mkJob (jpath job) (S (attempts job)) Failed, [jpath job])
  | Some Fatal => (mkJob (jpath job) (attempts job) Failed, [jpath job])
  end.

(** Modelled from the spec: step 4, one page of the enumeration of a
    fanned-out path; every key observed becomes a pending child job, a
    short page ends the enumeration. *)
Definition on_list (cfg : Config) (job : DeleteJob)
    (cursor : option string) (attempt : nat) (r : ListResult)
  : option (DeleteJob * list DeleteJob * list Path) :=
  match r with
  | Keys pg =>
      if conforming cfg cursor pg then
        let e := if (List.length pg <? pageSize cfg)%nat
                 then Exhausted (advance cursor pg)
                 else Paging (advance cursor pg) 0 in
        Some (mkJob (jpath job) (attempts job) (FannedOut e),
              map (child_job (jpath job)) pg, [])
      else None
  | ListError k =>
      match classify_error k with
      | Retryable =>
          if (S attempt <? maxAttempts cfg)%nat
          then Some (mkJob (jpath job) (attempts job)
                       (FannedOut (Paging cursor (S attempt))), [], [])
          else Some (mkJob (jpath job) (attempts job)
                       (FannedOut (Aborted cursor)), [], [jpath job])
      | _ => Some (mkJob (jpath job) (attempts job)
                     (FannedOut (Aborted cursor)), [], [jpath job])
      end
  end.

(** Modelled from the spec: the per-path algorithm of the orchestrator as
    one transition per scheduling decision or remote result.  The permit
    pool only limits which interleavings occur and is left out. *)
Definition step (cfg : Config) (s : Run) (c : Choice) : option Run :=
  match c with
  | Start j =>
      match nth_error (jobs s) j with
      | Some job =>
          match state job with
          | Pending =>
              Some (mkRun
                      (set_job j (mkJob (jpath job) (attempts job) Attempting)
                         (jobs s))
                      (failures s) (trace s))
          | _ => None
          end
      | None => None
      end
  | DeleteReturns j r =>
      match nth_error (jobs s) j with
      | Some job =>
          match state job with
          | Attempting =>
              let '(job', failed) := on_delete cfg job r in
              Some (mkRun (set_job j job' (jobs s))
                      (failed ++ failures s)
                      (DeleteCall j (jpath job) r :: trace s))
          | _ => None
          end
      | None => None
      end
  | ListReturns j r =>
      match nth_error (jobs s) j with
      | Some job =>
          match state job with
          | FannedOut (Paging cursor attempt) =>
              match on_list cfg job cursor attempt r with
              | Some (job', children, failed) =>
                  Some (mkRun (set_job j job' (jobs s) ++ children)
                          (failed ++ failures s)
                          (ListCall j (jpath job) cursor r :: trace s))
              | None => None
              end
          | _ => None
          end
      | None => None
      end
  end.

Fixpoint run (cfg : Config) (s : Run) (cs : list Choice) : option Run :=
  match cs with
  | [] => Some s
  | c :: cs' =>
      match step cfg s c with
      | Some s' => run cfg s' cs'
      | None => None
      end
  end.

(** Modelled from the spec: the caller creates the one job of the root
    path. *)
Definition init (root : Path) : Run :=
  {| jobs := [mkJob root 0 Pending]; failures := []; trace := [] |}.

Definition terminal (job : DeleteJob) : bool :=
  match state job with
  | Succeeded | Failed => true
  | FannedOut (Exhausted _) | FannedOut (Aborted _) => true
  | _ => false
  end.

(** Modelled from the spec: the run is complete when nothing is pending,
    attempting or still being enumerated. *)
Definition complete (s : Run) : bool := forallb terminal (jobs s).

Definition is_delete_of (p : Path) (e : Event) : Prop :=
  match e with
  | DeleteCall _ q _ => q = p
  | ListCall _ _ _ _ => False
  end.

Definition is_list_of (p : Path) (e : Event) : Prop :=
  match e with
  | DeleteCall _ _ _ => False
  | ListCall _ q _ _ => q = p
  end.

End Orchestrator.

(** ** The properties under study *)

(** A call with cursor [s] yields only keys after [s], at most [n] of them,
    and they are the first [n] of the keys after [s]. *)
Definition filters_then_truncates {realm : Realm}
    (self : FakeListRemote) (latency : Z)
    (path : string) (n : Z) (s : string) (timeout : option Z) : Prop :=
  match listPath self latency path n (Some s) timeout with
  | Resolved ks =>
      Forall (JsString.lt s) ks /\
      Z.of_nat (List.length ks) <= n /\
      ks = firstn (Z.to_nat n)
             (filter (fun key => JsString.gtb key s) (own_keys self path))
  | Rejected _ => timed_out latency timeout = true
  end.

(** A call yields its keys in strictly increasing order. *)
Definition keys_increase {realm : Realm} (self : FakeListRemote) (latency : Z)
    (path : string) (n : Z) (sa : option string) (timeout : option Z) : Prop :=
  match listPath self latency path n sa timeout with
  | Resolved ks => strictly_increasing ks
  | Rejected _ => timed_out latency timeout = true
  end.

(** The page asked for with the last key of a page shares no key with it. *)
Definition pages_disjoint {realm : Realm}
    (self : FakeListRemote) (path : string) : Prop :=
  forall latency n sa timeout latency' n' timeout' ks c ks',
    listPath self latency path n sa timeout = Resolved ks ->
    last_key ks = Some c ->
    listPath self latency' path n' (Some c) timeout' = Resolved ks' ->
    forall k, In k ks' -> ~ In k ks.

Definition sibling_keys_ordered {realm : Realm}
    (self : FakeListRemote) (path : string)
  : Prop :=
  (forall latency n sa timeout, keys_increase self latency path n sa timeout)
  /\ pages_disjoint self path.

(** Paging visits all keys of the path, each once and in order, and a short
    page is followed by empty pages only. *)
Definition pagination_complete {realm : Realm}
    (self : FakeListRemote) (latency : Z)
    (path : string) (n : Z) : Prop :=
  (forall m, (List.length (own_keys self path) <= m)%nat ->
             visited self latency path n m = own_keys self path)
  /\ (forall m, NoDup (visited self latency path n m))
  /\ (forall i, Z.of_nat (List.length (nth_page self latency path n i)) < n ->
      forall j, (i < j)%nat -> nth_page self latency path n j = []).

(** A call given timeout [t] fails once the latency reaches [t] and yields
    keys only below it. *)
Definition timeout_enforced {realm : Realm}
    (self : FakeListRemote) (latency : Z)
    (path : string) (n : Z) (sa : option string) (t : Z) : Prop :=
  (t <= latency ->
   listPath self latency path n sa (Some t) = Rejected "timeout")
  /\ (forall ks, listPath self latency path n sa (Some t) = Resolved ks ->
                 latency < t).

(** A call never yields a key. *)
Definition yields_no_key {realm : Realm} (self : FakeListRemote) (latency : Z)
    (path : string) (n : Z) (sa : option string) (timeout : option Z) : Prop :=
  match listPath self latency path n sa timeout with
  | Resolved ks => ks = []
  | Rejected _ => timed_out latency timeout = true
  end.


(** Stores used as examples. *)
Definition emptyKeyDb : FakeListRemote :=
  constructor (Internal (JsObject.literal [("", Leaf 1)])).

Definition numericKeysDb : FakeListRemote :=
  constructor (Internal (JsObject.literal [("10", Leaf 1); ("2", Leaf 1)])).

Definition nestedDb : FakeListRemote :=
  constructor
    (Internal (JsObject.literal
       [("a", Internal (JsObject.literal [("b", Leaf 1); ("c", Leaf 0)]));
        ("z", Leaf 3)])).

(** Values no key is listed under and no path continues from: [undefined],
    [null], a number of the tree. *)
Definition childless {realm : Realm} (d : JsVal) : Prop :=
  match d with
  | JUndefined | JNull | JNode (Leaf _) => True
  | _ => False
  end.

(** The key at which a path leaves the tree: the first segment the object
    reached does not own. *)
Fixpoint first_missing (segs : list string) (t : Node) : option string :=
  match segs with
  | [] => None
  | s :: rest =>
      match t with
      | Leaf _ => None
      | Internal o =>
          match JsObject.get o s with
          | Some child => first_missing rest child
          | None => Some s
          end
      end
  end.


Module OrchestratorProps.
Import Orchestrator.

Definition enum_cursor (e : Enumeration) : option string :=
  match e with
  | Paging cursor _ | Exhausted cursor | Aborted cursor => cursor
  end.

(** The enumeration of [parent] has got to key [k] or beyond. *)
Definition observed (parent : DeleteJob) (k : string) : Prop :=
  exists e cur, state parent = FannedOut e /\ enum_cursor e = Some cur
                /\ (k = cur \/ JsString.lt k cur).

(** Every job but the root one is the child of a fanned-out job, under a
    key that job has observed; no two jobs share a path. *)
Definition well_formed (root : Path) (js : list DeleteJob) : Prop :=
  NoDup (map jpath js)
  /\ (forall c, In c js ->
        jpath c = root
        \/ exists parent k, In parent js /\ jpath c = jpath parent ++ [k]
                            /\ observed parent k)
  /\ (forall c, In c js -> (List.length root <= List.length (jpath c))%nat).

(** After a delete of [p] came back with [PayloadTooLarge]: [p] is not
    deleted again, its job is fanned out, and a listing of [p] has been
    made or is the pending first call of its enumeration. *)
Definition fanned_out_after (js : list DeleteJob) (later : list Event)
    (p : Path) : Prop :=
  (forall e, In e later -> ~ is_delete_of p e)
  /\ exists job en,
       In job js /\ jpath job = p /\ state job = FannedOut en
       /\ (en = Paging None 0 \/ exists e, In e later /\ is_list_of p e).

Definition trace_respects_signal (s : Run) : Prop :=
  forall later earlier j p,
    trace s = later ++ DeleteCall j p PayloadTooLarge :: earlier ->
    fanned_out_after (jobs s) later p.

Definition invariant (root : Path) (s : Run) : Prop :=
  well_formed root (jobs s) /\ trace_respects_signal s.

(** In a run, a path whose delete came back with [PayloadTooLarge] is
    never the object of another delete call; its job is fanned out; a
    listing call on the path has followed or is the call the job can make
    next; and once the run is complete a listing call has followed. *)
Definition structural_signal_respected (cfg : Config) (s : Run) : Prop :=
  forall later earlier j p,
    trace s = later ++ DeleteCall j p PayloadTooLarge :: earlier ->
    (forall e, In e later -> ~ is_delete_of p e)
    /\ (exists job en, In job (jobs s) /\ jpath job = p
                       /\ state job = FannedOut en)
    /\ ((exists e, In e later /\ is_list_of p e)
        \/ exists i s', step cfg s (ListReturns i (Keys [])) = Some s'
                        /\ trace s' = ListCall i p None (Keys []) :: trace s)
    /\ (complete s = true -> exists e, In e later /\ is_list_of p e).

(** A run of the root path ["big"]: its delete is too large, the listing
    yields the children ["a"] and ["b"], which are then deleted. *)
Definition sample_config : Config := mkConfig 3 5.

Definition sample_choices : list Choice :=
  [Start 0; DeleteReturns 0 PayloadTooLarge;
   ListReturns 0 (Keys ["a"; "b"]);
   Start 2; Start 1; DeleteReturns 2 Success;
   DeleteReturns 1 (DeleteError TimeoutError); Start 1;
   DeleteReturns 1 Success].

(** The calls of that run after the first one, latest first. *)
Definition sample_later : list Event :=
  [DeleteCall 1 ["big"; "a"] Success;
   DeleteCall 1 ["big"; "a"] (DeleteError TimeoutError);
   DeleteCall 2 ["big"; "b"] Success;
   ListCall 0 ["big"] None (Keys ["a"; "b"])].

End OrchestratorProps.

(** ** The size of a subtree *)

(** *** Numbers

    A number of the source is a binary64 value: 53 significant bits, and
    an exponent that lets the finite values reach up to [2^1024], [2^1024]
    itself left out.  The numbers of the fake database are integers, so a
    finite number is the integer it is worth. *)

Module Number.

Inductive t : Type :=
| Finite (z : Z)
| PosInfinity
| NegInfinity
| NaN.

(** The multiple of [u] nearest to [m]; of two multiples equally near, the
    even one. *)
Definition nearest_multiple (u m : Z) : Z :=
  let q := m / u in
  let r := m mod u in
  if 2 * r <? u then q * u
  else if u <? 2 * r then (q + 1) * u
  else if Z.even q then q * u else (q + 1) * u.

(** The distance between neighbouring values of the format at the
    magnitude [m]: 53 bits hold the leading digits of [m]. *)
Definition spacing (m : Z) : Z := 2 ^ Z.max 0 (Z.log2 m - 52).

(** Rounding to nearest, ties to even, of a magnitude. *)
Definition round_magnitude (m : Z) : Z := nearest_multiple (spacing m) m.

(** The first magnitude that is no longer finite. *)
Definition overflow : Z := 2 ^ 1024.

(** The number an integer is rounded to. *)
Definition of_Z (z : Z) : t :=
  let r := round_magnitude (Z.abs z) in
  if overflow <=? r then (if z <? 0 then NegInfinity else PosInfinity)
  else Finite (Z.sgn z * r).

(** [x + y]. *)
Definition add (x y : t) : t :=
  match x, y with
  | NaN, _ | _, NaN => NaN
  | Finite a, Finite b => of_Z (a + b)
  | PosInfinity, NegInfinity | NegInfinity, PosInfinity => NaN
  | PosInfinity, _ | _, PosInfinity => PosInfinity
  | NegInfinity, _ | _, NegInfinity => NegInfinity
  end.

(** [x <= y]. *)
Definition leb (x y : t) : bool :=
  match x, y with
  | NaN, _ | _, NaN => false
  | Finite a, Finite b => a <=? b
  | NegInfinity, _ | _, PosInfinity => true
  | _, _ => false
  end.

Definition le (x y : t) : Prop := leb x y = true.

(** A value of the format that is not negative: a rounded natural number
    or [Infinity]. *)
Definition natural (x : t) : Prop :=
  match x with
  | Finite z => 0 <= z /\ round_magnitude z = z
  | PosInfinity => True
  | NegInfinity | NaN => False
  end.

End Number.

(** [_size(data)]: a leaf is its own size; an object is the sum over its
    keys, in [Object.keys] order, of the sizes of [data[key]], starting
    from 0 and rounded at every addition.  An entry of the property list
    carries [data[key]] for its key.  The number a leaf holds is the one
    its integer stands for: the integer itself when it is a value of the
    format, as every integer up to [2^53] is, and the value the numeral
    denotes otherwise. *)
Fixpoint _size (data : Node) : Number.t :=
  match data with
  | Leaf n => Number.of_Z n
  | Internal o =>
      fold_left
        (fun size kv =>
           Number.add size (let '(_, child) := kv in _size child))
        o (Number.Finite 0)
  end.

(** No leaf of the tree is negative. *)
Fixpoint nonneg_leaves (t : Node) : bool :=
  match t with
  | Leaf n => 0 <=? n
  | Internal o =>
      forallb (fun kv => let '(_, child) := kv in nonneg_leaves child) o
  end.

(** The body of the loop of [_size]. *)
Definition size_step (size : Number.t) (kv : string * Node) : Number.t :=
  Number.add size (let '(_, child) := kv in _size child).

(** The sum of the leaves of a tree, as integers: what [_size] would be
    were no addition rounded. *)
Fixpoint leaf_total (t : Node) : Z :=
  match t with
  | Leaf n => n
  | Internal o =>
      fold_left
        (fun total kv => total + (let '(_, child) := kv in leaf_total child))
        o 0
  end.

Definition total_step (total : Z) (kv : string * Node) : Z :=
  total + (let '(_, child) := kv in leaf_total child).

(** Two orders of the same three keys. *)
Definition bigFirst : Node :=
  Internal [("a", Leaf (2 ^ 53)); ("b", Leaf 1); ("c", Leaf 1)].

Definition bigLast : Node :=
  Internal [("b", Leaf 1); ("c", Leaf 1); ("a", Leaf (2 ^ 53))].

(** ** The ext:install command *)

(** [installExtension] and the action of the command talk to collaborators
    that are not part of the sources at hand (billing check, prompts, the
    extensions API, the spinner, the loggers).  A collaborator is a field of
    [World]: a function of the arguments of the call, and of the number of
    the attempt where the code calls it in a loop.  The calls made are kept
    in a trace, latest first.  Rendering helpers ([clc.bold], [marked],
    [utils.consoleUrl]) are functions to strings; [clc.bold] is handed
    values that may be undefined. *)
Module ExtInstall.

(** What the code reads of a caught value: [err instanceof FirebaseError],
    [err.status], [err.message]. *)
Record Thrown : Type := mkThrown {
  isFirebaseError : bool;
  status : option Z;
  message : string
}.

(** What an awaited call comes back with. *)
Inductive Result (A : Type) : Type :=
| Ok (value : A)
| Throw (err : Thrown).
Arguments Ok {A} value.
Arguments Throw {A} err.

(** What a promise is rejected with: a caught value thrown on as it is, or
    [new FirebaseError(message, { original })]. *)
Inductive Rejection : Type :=
| Original (err : Thrown)
| NewFirebaseError (msg : string) (original : Thrown).

(** A settled [Promise<void>]. *)
Inductive Settled : Type :=
| Completed
| Raised (r : Rejection).

Record Role : Type := mkRole { role : string }.

Definition newline : string := String (ascii_of_nat 10) EmptyString.

(** [a || b] on strings that may be undefined. *)
Definition or_else (a : option string) (b : string) : string :=
  match a with
  | Some s => if JsString.nonempty s then s else b
  | None => b
  end.

Section Install.

Local Open Scope string_scope.

Context {Param Params Response : Type}.

Record ExtensionSpec : Type := mkSpec {
  name : string;
  displayName : option string;
  description : string;
  billingRequired : bool;
  roles : option (list Role);
  params : option (list Param);
  postinstallContent : option string
}.

Record ExtensionSource : Type := mkSource { spec : ExtensionSpec }.

Inductive Event : Type :=
| Call_getProjectId
| Call_promptForOfficialExtension (msg : string)
| Call_resolveSource (extensionName msg : string)
| Call_getSource (sourceUrl : string)
| Call_promptOnce
| Call_checkProjectBilling (projectId extName : string) (required : bool)
| Call_askUserForConsent (extName projectId : string) (roleNames : list string)
| Call_getParams (projectId : string) (paramFilePath : option string)
| Call_getValidInstanceId (projectId specName : string)
| Call_createServiceAccountAndSetRoles (projectId : string)
    (specRoles : list Role) (instanceId : string)
| Call_promptForValidInstanceId (suggestion : string)
| Call_createInstance (projectId instanceId serviceAccountEmail : string)
| SpinnerStart
| SpinnerStop
| SpinnerFail
| LoggerInfo (msg : string)
| LoggerDebug (msg : string)
| LogLabeledSuccess (label msg : string)
| LogLabeledBullet (label msg : string).

Record World : Type := mkWorld {
  getProjectId : Result string;
  promptForOfficialExtension : string -> Result string;
  resolveSource : string -> string -> Result string;
  getSource : string -> Result ExtensionSource;
  promptOnce : Result bool;
  checkProjectBilling : string -> string -> bool -> Result unit;
  askUserForConsent : string -> string -> list string -> Result unit;
  getParams : string -> list Param -> option string -> Result Params;
  getValidInstanceId : string -> string -> Result string;
  createServiceAccountAndSetRoles :
    nat -> string -> list Role -> string -> Result string;
  promptForValidInstanceId : nat -> string -> Result string;
  getRandomString : nat -> nat -> string;
  createInstance :
    string -> string -> ExtensionSource -> Params -> string -> Result Response;
  populatedPostinstallContent : Response -> option string;
  populatePostinstall : string -> Params -> string;
  bold : option string -> string;
  marked : string -> string;
  consoleUrl : string -> string -> string;
  logPrefix : string
}.

(** A computation that may throw, adds to the trace, and may not end
    ([None]: the loop was cut off). *)
Definition M (A : Type) : Type :=
  list Event -> option (Result A * list Event).

Definition ret {A : Type} (a : A) : M A := fun tr => Some (Ok a, tr).

Definition throw {A : Type} (err : Thrown) : M A :=
  fun tr => Some (Throw err, tr).

Definition bind {A B : Type} (m : M A) (k : A -> M B) : M B :=
  fun tr =>
    match m tr with
    | Some (Ok a, tr') => k a tr'
    | Some (Throw err, tr') => Some (Throw err, tr')
    | None => None
    end.

(** An effect without a result of interest. *)
Definition emit (e : Event) : M unit := fun tr => Some (Ok tt, e :: tr).

(** [await f(args)]: the call is made, then its result is there. *)
Definition await {A : Type} (e : Event) (r : Result A) : M A :=
  fun tr => Some (r, e :: tr).

(** [try { m } catch (err) { h err }]. *)
Definition try_catch {A : Type} (m : M A) (h : Thrown -> M A) : M A :=
  fun tr =>
    match m tr with
    | Some (Throw err, tr') => h err tr'
    | other => other
    end.

Definition diverge {A : Type} : M A := fun _ => None.

Notation "x <- c1 ;; c2" := (bind c1 (fun x => c2))
  (at level 61, c1 at next level, right associativity).
Notation "c1 ;;; c2" := (bind c1 (fun _ => c2))
  (at level 61, right associativity).

Variable w : World.

(** [spec.displayName || spec.name]. *)
Definition shownName (sp : ExtensionSpec) : string :=
  or_else (displayName sp) (name sp).

(** [err.status === 409]. *)
Definition is_conflict (err : Thrown) : bool :=
  match status err with
  | Some s => Z.eqb s 409
  | None => false
  end.

(** The loop [while (!serviceAccountEmail)]: one round creates the service
    account under the current instance id; on a conflict the user is asked
    for another id, suggested as the current one with a random suffix; any
    other error is thrown on.  It yields the instance id in use and the
    e-mail once that is truthy. *)
Fixpoint serviceAccountLoop (fuel attempt : nat) (projectId : string)
    (specRoles : list Role) (instanceId : string) : M (string * string) :=
  match fuel with
  | O => diverge
  | S fuel' =>
      round <-
        try_catch
          (email <-
             await (Call_createServiceAccountAndSetRoles projectId specRoles
                      instanceId)
               (createServiceAccountAndSetRoles w attempt projectId specRoles
                  instanceId);;
           ret (instanceId, email))
          (fun err =>
             if is_conflict err then
               emit SpinnerStop;;;
               emit (LoggerInfo (message err));;;
               let suggestion :=
                 instanceId ++ "-" ++ getRandomString w attempt 4 in
               newId <-
                 await (Call_promptForValidInstanceId suggestion)
                   (promptForValidInstanceId w attempt suggestion);;
               emit SpinnerStart;;;
               ret (newId, "")
             else throw err);;
      if JsString.nonempty (snd round) then ret round
      else serviceAccountLoop fuel' (S attempt) projectId specRoles (fst round)
  end.

(** The body of the [try] of [installExtension]. *)
Definition installBody (fuel : nat) (projectId : string)
    (source : ExtensionSource) (paramFilePath : option string) : M unit :=
  let sp := spec source in
  await (Call_checkProjectBilling projectId (shownName sp) (billingRequired sp))
    (checkProjectBilling w projectId (shownName sp) (billingRequired sp));;;
  let roleNames :=
    match roles sp with
    | Some rs => map role rs
    | None => []
    end in
  await (Call_askUserForConsent (shownName sp) projectId roleNames)
    (askUserForConsent w (shownName sp) projectId roleNames);;;
  let specParams := match params sp with Some ps => ps | None => [] end in
  ps <- await (Call_getParams projectId paramFilePath)
          (getParams w projectId specParams paramFilePath);;
  firstId <- await (Call_getValidInstanceId projectId (name sp))
               (getValidInstanceId w projectId (name sp));;
  emit SpinnerStart;;;
  let specRoles := match roles sp with Some rs => rs | None => [] end in
  acquired <- serviceAccountLoop fuel 0 projectId specRoles firstId;;
  let instanceId := fst acquired in
  let serviceAccountEmail := snd acquired in
  response <-
    await (Call_createInstance projectId instanceId serviceAccountEmail)
      (createInstance w projectId instanceId source ps serviceAccountEmail);;
  emit SpinnerStop;;;
  emit (LogLabeledSuccess (logPrefix w)
          ("successfully installed " ++ bold w (Some (shownName sp))
           ++ ", its Instance ID is " ++ bold w (Some instanceId) ++ "."));;;
  let usageInstruction :=
    or_else (populatedPostinstallContent w response)
      (populatePostinstall w (or_else (postinstallContent sp) "") ps) in
  (if JsString.nonempty usageInstruction then
     emit (LogLabeledBullet (logPrefix w)
             ("usage instructions:" ++ newline ++ marked w usageInstruction))
   else emit (LoggerDebug "No usage instructions provided."));;;
  emit (LogLabeledBullet (logPrefix w)
          (marked w
             ("You can view your new instance in the Firebase console: "
              ++ consoleUrl w projectId
                   ("/extensions/instances/" ++ instanceId ++ "?tab=usage")))).

(** The rejection of a [catch] that throws a [FirebaseError] on and wraps
    anything else. *)
Definition asFirebaseError (prefix : string) (err : Thrown) : Rejection :=
  if isFirebaseError err then Original err
  else NewFirebaseError (prefix ++ message err) err.

Definition installExtension (fuel : nat) (projectId : string)
    (source : ExtensionSource) (paramFilePath : option string)
    (tr : list Event) : option (Settled * list Event) :=
  match installBody fuel projectId source paramFilePath tr with
  | Some (Ok _, tr') => Some (Completed, tr')
  | Some (Throw err, tr') =>
      Some (Raised (asFirebaseError "Error occurred installing extension: " err),
            SpinnerFail :: tr')
  | None => None
  end.

(** What the [try] of the action does before it hands over to
    [installExtension]: the source to install, or nothing when the user
    declines. *)
Definition chooseSource (extensionName : string) (learnMore : bool)
  : M (option ExtensionSource) :=
  sourceUrl <-
    await (Call_resolveSource extensionName
             ("Unable to find extension source named " ++ bold w (Some extensionName)
              ++ ". Run " ++ bold w (Some "firebase ext:install")
              ++ " to select from the list of all available extensions."))
      (resolveSource w extensionName
         ("Unable to find extension source named " ++ bold w (Some extensionName)
          ++ ". Run " ++ bold w (Some "firebase ext:install")
          ++ " to select from the list of all available extensions."));;
  source <- await (Call_getSource sourceUrl) (getSource w sourceUrl);;
  if learnMore then
    emit (LogLabeledBullet (logPrefix w)
            ("You are about to install "
             ++ bold w (displayName (spec source))
             ++ "." ++ newline ++ description (spec source) ++ newline
             ++ "View details: https://firebase.google.com/products/extensions/"
             ++ extensionName ++ newline));;;
    confirm <- await Call_promptOnce (promptOnce w);;
    if confirm then ret (Some source) else ret None
  else ret (Some source).

(** The action of the command; [extensionName] may be missing or empty. *)
Definition action (fuel : nat) (extensionName : option string)
    (paramFilePath : option string) (tr : list Event)
  : option (Settled * list Event) :=
  match getProjectId w with
  | Throw err => Some (Raised (Original err), Call_getProjectId :: tr)
  | Ok projectId =>
      let tr := Call_getProjectId :: tr in
      let learnMore := negb (JsString.nonempty (or_else extensionName "")) in
      let named : M string :=
        if learnMore then
          await (Call_promptForOfficialExtension
                   ("Which official extension would you like to install?"
                    ++ newline
                    ++ "  Select an extension, then press Enter to learn more."))
            (promptForOfficialExtension w
               ("Which official extension would you like to install?"
                ++ newline
                ++ "  Select an extension, then press Enter to learn more."))
        else ret (or_else extensionName "") in
      match named tr with
      | None => None
      | Some (Throw err, tr') => Some (Raised (Original err), tr')
      | Some (Ok chosen, tr') =>
          match chooseSource chosen learnMore tr' with
          | None => None
          | Some (Throw err, tr'') =>
              Some (Raised (asFirebaseError
                              "Error occurred installing the extension: " err),
                    tr'')
          | Some (Ok None, tr'') => Some (Completed, tr'')
          | Some (Ok (Some source), tr'') =>
              installExtension fuel projectId source paramFilePath tr''
          end
      end
  end.

(** Whether the spinner is turning after the calls of a trace. *)
Fixpoint spinning (tr : list Event) : bool :=
  match tr with
  | [] => false
  | SpinnerStart :: _ => true
  | SpinnerStop :: _ | SpinnerFail :: _ => false
  | _ :: earlier => spinning earlier
  end.

(** The instance id in use after [k] conflicts: what the user answered to
    the [k]-th prompt. *)
Fixpoint idAfter (k : nat) (firstId : string) : string :=
  match k with
  | O => firstId
  | S k' =>
      match promptForValidInstanceId w k'
              (idAfter k' firstId ++ "-" ++ getRandomString w k' 4) with
      | Ok newId => newId
      | Throw _ => idAfter k' firstId
      end
  end.

(** The rejection is an instance of [FirebaseError]. *)
Definition isFirebase (r : Rejection) : bool :=
  match r with
  | Original err => isFirebaseError err
  | NewFirebaseError _ _ => true
  end.

(** The effects of one round of the service account loop. *)
Definition isLoopEvent (e : Event) : bool :=
  match e with
  | Call_createServiceAccountAndSetRoles _ _ _
  | Call_promptForValidInstanceId _
  | SpinnerStart | SpinnerStop | LoggerInfo _ => true
  | _ => false
  end.

(** The steps of an installation, logging apart. *)
Definition isInstallStep (e : Event) : bool :=
  match e with
  | Call_checkProjectBilling _ _ _
  | Call_askUserForConsent _ _ _
  | Call_getParams _ _
  | Call_getValidInstanceId _ _
  | Call_createServiceAccountAndSetRoles _ _ _
  | Call_promptForValidInstanceId _
  | Call_createInstance _ _ _
  | SpinnerStart | SpinnerStop | SpinnerFail => true
  | _ => false
  end.

(** The first [k] attempts to create the service account meet a conflict
    and the user answers each prompt; the attempt after them yields the
    truthy [email]. *)
Definition conflictsThenSuccess (projectId : string) (specRoles : list Role)
    (firstId : string) (k : nat) (email : string) : Prop :=
  (forall i, (i < k)%nat ->
     exists err newId,
       createServiceAccountAndSetRoles w i projectId specRoles
         (idAfter i firstId) = Throw err
       /\ is_conflict err = true
       /\ promptForValidInstanceId w i
            (idAfter i firstId ++ "-" ++ getRandomString w i 4) = Ok newId)
  /\ createServiceAccountAndSetRoles w k projectId specRoles
       (idAfter k firstId) = Ok email
  /\ JsString.nonempty email = true.

End Install.

(** A world for examples: the first attempt to create the service account
    meets a conflict, the user then picks the suggested id, and everything
    else goes through. *)
Definition conflictError : Thrown :=
  mkThrown false (Some 409) "already exists".

Definition sampleSpec : @ExtensionSpec unit :=
  mkSpec "resize" None "Resizes images" false
    (Some [mkRole "storage.admin"]) None None.

Definition sampleWorld : @World unit unit unit :=
  {| getProjectId := Ok "demo";
     promptForOfficialExtension := fun _ => Ok "resize";
     resolveSource := fun n _ => Ok n;
     getSource := fun _ => Ok (mkSource sampleSpec);
     promptOnce := Ok false;
     checkProjectBilling := fun _ _ _ => Ok tt;
     askUserForConsent := fun _ _ _ => Ok tt;
     getParams := fun _ _ _ => Ok tt;
     getValidInstanceId := fun _ n => Ok n;
     createServiceAccountAndSetRoles := fun attempt _ _ id =>
       match attempt with
       | O => Throw conflictError
       | _ => Ok (String.append id "@demo")
       end;
     promptForValidInstanceId := fun _ suggestion => Ok suggestion;
     getRandomString := fun _ _ => "abcd";
     createInstance := fun _ _ _ _ _ => Ok tt;
     populatedPostinstallContent := fun _ => None;
     populatePostinstall := fun content _ => content;
     bold := fun s => match s with Some s => s | None => "undefined" end;
     marked := fun s => s;
     consoleUrl := fun p path => String.append p path;
     logPrefix := "extensions" |}.

(** The same world, but no source can be resolved. *)
Definition failingWorld : @World unit unit unit :=
  {| getProjectId := getProjectId sampleWorld;
     promptForOfficialExtension := promptForOfficialExtension sampleWorld;
     resolveSource := fun _ _ => Throw (mkThrown false None "no such source");
     getSource := getSource sampleWorld;
     promptOnce := promptOnce sampleWorld;
     checkProjectBilling := checkProjectBilling sampleWorld;
     askUserForConsent := askUserForConsent sampleWorld;
     getParams := getParams sampleWorld;
     getValidInstanceId := getValidInstanceId sampleWorld;
     createServiceAccountAndSetRoles :=
       createServiceAccountAndSetRoles sampleWorld;
     promptForValidInstanceId := promptForValidInstanceId sampleWorld;
     getRandomString := getRandomString sampleWorld;
     createInstance := createInstance sampleWorld;
     populatedPostinstallContent := populatedPostinstallContent sampleWorld;
     populatePostinstall := populatePostinstall sampleWorld;
     bold := bold sampleWorld;
     marked := marked sampleWorld;
     consoleUrl := consoleUrl sampleWorld;
     logPrefix := logPrefix sampleWorld |}.

End ExtInstall.

(** ** Facts about the string order *)

Module JsStringFacts.
Import JsString.

Lemma ascii_compare_refl (a : ascii) : Ascii.compare a a = Eq.
Proof. unfold Ascii.compare. apply N.compare_refl. Qed.

Lemma ascii_compare_lt_trans (a b c : ascii) :
  Ascii.compare a b = Lt -> Ascii.compare b c = Lt -> Ascii.compare a c = Lt.
Proof.
  unfold Ascii.compare. rewrite !N.compare_lt_iff. apply N.lt_trans.
Qed.

Lemma compare_refl (s : string) : String.compare s s = Eq.
Proof.
  induction s as [|a s IH]; simpl; [reflexivity|].
  now rewrite ascii_compare_refl.
Qed.

Lemma compare_lt_trans (a b c : string) :
  String.compare a b = Lt -> String.compare b c = Lt ->
  String.compare a c = Lt.
Proof.
  revert b c.
  induction a as [|x a IH]; intros [|y b] [|z c]; simpl;
    try discriminate; auto.
  destruct (Ascii.compare x y) eqn:Exy; try discriminate;
    destruct (Ascii.compare y z) eqn:Eyz; try discriminate; intros Hab Hbc.
  - apply Ascii.compare_eq_iff in Exy, Eyz. subst.
    rewrite ascii_compare_refl. eauto.
  - apply Ascii.compare_eq_iff in Exy. subst. now rewrite Eyz.
  - apply Ascii.compare_eq_iff in Eyz. subst. now rewrite Exy.
  - now rewrite (ascii_compare_lt_trans _ _ _ Exy Eyz).
Qed.

Lemma lt_compare (a b : string) : lt a b <-> String.compare a b = Lt.
Proof.
  unfold lt, String.ltb. destruct (String.compare a b); split; congruence.
Qed.

Lemma lt_irrefl (a : string) : ~ lt a a.
Proof. rewrite lt_compare, compare_refl. discriminate. Qed.

Lemma lt_trans (a b c : string) : lt a b -> lt b c -> lt a c.
Proof. rewrite !lt_compare. apply compare_lt_trans. Qed.

Lemma lt_asym (a b : string) : lt a b -> ~ lt b a.
Proof. intros Hab Hba. exact (lt_irrefl a (lt_trans _ _ _ Hab Hba)). Qed.

Lemma gtb_lt (k s : string) : gtb k s = true <-> lt s k.
Proof. reflexivity. Qed.

Lemma gtb_irrefl (k : string) : gtb k k = false.
Proof.
  destruct (gtb k k) eqn:E; [|reflexivity].
  now apply gtb_lt, lt_irrefl in E.
Qed.

Lemma gtb_false_of_lt (k s : string) : lt k s -> gtb k s = false.
Proof.
  intros H. destruct (gtb k s) eqn:E; [|reflexivity].
  apply gtb_lt in E. now apply lt_asym in E.
Qed.

(** Every non-empty string is greater than the empty one. *)
Lemma gtb_empty (k : string) : gtb k "" = nonempty k.
Proof. now destruct k. Qed.

Lemma nonempty_true (s : string) : nonempty s = true <-> s <> "".
Proof.
  unfold nonempty. rewrite negb_true_iff. apply String.eqb_neq.
Qed.

Lemma nonempty_false (s : string) : nonempty s = false <-> s = "".
Proof.
  unfold nonempty. rewrite negb_false_iff. apply String.eqb_eq.
Qed.

End JsStringFacts.

(** ** Facts about lists of keys *)

Section KeyLists.
Import JsString JsStringFacts.

Lemma slice0_nil {A : Type} (n : Z) : slice0 (@nil A) n = [].
Proof. unfold slice0. now rewrite firstn_nil. Qed.

Lemma slice0_prefix {A : Type} (l : list A) (n : Z) :
  exists m, slice0 l n = firstn m l.
Proof. unfold slice0. eauto. Qed.

Lemma slice0_nonneg {A : Type} (l : list A) (n : Z) :
  0 <= n -> slice0 l n = firstn (Z.to_nat n) l.
Proof.
  intros Hn. unfold slice0.
  destruct (Z.ltb_spec n 0) as [Hlt|_]; [lia|].
  destruct (Z.le_gt_cases n (Z.of_nat (List.length l))) as [Hle|Hgt].
  - now rewrite Z.min_l.
  - rewrite Z.min_r by lia. rewrite Nat2Z.id.
    rewrite firstn_all. symmetry. apply firstn_all2. lia.
Qed.

Lemma firstn_plus {A : Type} (a b : nat) (l : list A) :
  firstn (a + b) l = firstn a l ++ firstn b (skipn a l).
Proof.
  revert l. induction a as [|a IH]; intros l; [reflexivity|].
  destruct l as [|x l]; simpl.
  - now rewrite firstn_nil.
  - now rewrite IH.
Qed.

Lemma last_key_In (l : list string) (c : string) :
  last_key l = Some c -> In c l.
Proof.
  induction l as [|x [|y l] IH]; simpl; intros H.
  - discriminate.
  - left. congruence.
  - right. now apply IH.
Qed.

Lemma last_key_app (a b : list string) :
  last_key (a ++ b) =
    match last_key b with Some k => Some k | None => last_key a end.
Proof.
  induction a as [|x a IH]; simpl.
  - now destruct (last_key b).
  - destruct a as [|y a]; simpl in *.
    + destruct b as [|z b]; [reflexivity|].
      destruct (last_key (z :: b)) eqn:E; [reflexivity|].
      exfalso. clear -E. revert z E.
      induction b as [|w b IHb]; intros z E; simpl in E; [discriminate|].
      eauto.
    + exact IH.
Qed.

Lemma in_firstn_in {A : Type} (m : nat) (l : list A) (k : A) :
  In k (firstn m l) -> In k l.
Proof.
  revert l. induction m as [|m IH]; intros [|x l]; simpl; try tauto.
  intros [->|H]; auto.
Qed.

Lemma sorted_firstn (m : nat) (l : list string) :
  strictly_increasing l -> strictly_increasing (firstn m l).
Proof.
  unfold strictly_increasing. revert l.
  induction m as [|m IH]; intros l Hl; simpl; [constructor|].
  destruct l as [|x l]; [constructor|].
  inversion Hl as [|? ? Hs Hx]; subst. constructor; [now apply IH|].
  rewrite Forall_forall in *. intros k Hk. apply Hx.
  eapply in_firstn_in; eauto.
Qed.

Lemma sorted_filter (f : string -> bool) (l : list string) :
  strictly_increasing l -> strictly_increasing (filter f l).
Proof.
  unfold strictly_increasing.
  induction 1 as [|x l Hs IH Hx]; simpl; [constructor|].
  destruct (f x); [|exact IH]. constructor; [exact IH|].
  rewrite Forall_forall in *. intros k Hk.
  apply filter_In in Hk. now apply Hx.
Qed.

Lemma sorted_app_r (a b : list string) :
  strictly_increasing (a ++ b) -> strictly_increasing b.
Proof.
  unfold strictly_increasing.
  induction a as [|x a IH]; simpl; intros H; [exact H|].
  inversion H; subst. now apply IH.
Qed.

Lemma sorted_NoDup (l : list string) : strictly_increasing l -> NoDup l.
Proof.
  induction 1 as [|x l Hs IH Hx]; constructor; [|exact IH].
  intros Hin. rewrite Forall_forall in Hx.
  exact (lt_irrefl x (Hx x Hin)).
Qed.

(** In an increasing list every key is at most the last one. *)
Lemma sorted_le_last (l : list string) (c : string) :
  strictly_increasing l -> last_key l = Some c ->
  forall k, In k l -> k = c \/ lt k c.
Proof.
  induction 1 as [|x l Hs IH Hx]; intros Hlast k Hk; [discriminate|].
  destruct l as [|y l].
  - simpl in *. left. destruct Hk as [<-|[]]. congruence.
  - change (last_key (y :: l) = Some c) in Hlast.
    destruct Hk as [<-|Hk]; [|now apply IH].
    right. rewrite Forall_forall in Hx. apply Hx.
    now apply last_key_In.
Qed.

Lemma filter_all (f : string -> bool) (l : list string) :
  Forall (fun k => f k = true) l -> filter f l = l.
Proof.
  induction 1 as [|x l Hx _ IH]; simpl; [reflexivity|].
  now rewrite Hx, IH.
Qed.

(** What lies after the last key of an increasing prefix is exactly what
    is greater than that key. *)
Lemma filter_after_last (done rest : list string) (c : string) :
  strictly_increasing (done ++ rest) -> last_key done = Some c ->
  filter (fun k => gtb k c) (done ++ rest) = rest.
Proof.
  induction done as [|x done IH]; intros Hs Hlast; [discriminate|].
  inversion Hs as [|? ? Hs' Hx]; subst.
  destruct done as [|y done].
  - simpl in *. injection Hlast as ->.
    rewrite gtb_irrefl. apply filter_all.
    eapply Forall_impl; [|exact Hx]. intros k Hk. now apply gtb_lt.
  - change (last_key (y :: done) = Some c) in Hlast.
    change ((x :: y :: done) ++ rest) with (x :: ((y :: done) ++ rest)).
    cbn [filter]. rewrite gtb_false_of_lt.
    + now apply IH.
    + rewrite Forall_forall in Hx. apply Hx.
      apply in_or_app. left. now apply last_key_In.
Qed.

Lemma filter_gt_empty (l : list string) :
  ~ In "" l -> filter (fun k => gtb k "") l = l.
Proof.
  intros H. apply filter_all. rewrite Forall_forall. intros k Hk.
  rewrite gtb_empty. apply nonempty_true. intros ->. contradiction.
Qed.

Lemma apply_startAfter_nil (sa : option string) : apply_startAfter sa [] = [].
Proof.
  destruct sa as [s|]; simpl; [|reflexivity]. now destruct (nonempty s).
Qed.

Lemma apply_startAfter_incl (sa : option string) (l : list string) :
  incl (apply_startAfter sa l) l.
Proof.
  intros k. destruct sa as [s|]; simpl; [|tauto].
  destruct (nonempty s); [|tauto]. intros H. now apply filter_In in H.
Qed.

Lemma apply_startAfter_sorted (sa : option string) (l : list string) :
  strictly_increasing l -> strictly_increasing (apply_startAfter sa l).
Proof.
  intros H. destruct sa as [s|]; simpl; [|exact H].
  destruct (nonempty s); [|exact H]. now apply sorted_filter.
Qed.

(** With increasing keys none of which is empty, a cursor that is the last
    key of a prefix leaves exactly the rest. *)
Lemma apply_startAfter_rest (done rest : list string) :
  strictly_increasing (done ++ rest) -> ~ In "" (done ++ rest) ->
  apply_startAfter (last_key done) (done ++ rest) = rest.
Proof.
  intros Hs Hne. destruct (last_key done) as [c|] eqn:E.
  - simpl. assert (Hc : nonempty c = true).
    { apply nonempty_true. intros ->. apply Hne, in_or_app. left.
      now apply last_key_In. }
    rewrite Hc. now apply filter_after_last.
  - destruct done as [|x done]; [reflexivity|].
    exfalso. clear -E. revert x E.
    induction done as [|y done IH]; intros x E; simpl in E; [discriminate|].
    eauto.
Qed.

End KeyLists.

(** ** What [listPath] computes *)

Lemma listPath_unfold {realm : Realm} (self : FakeListRemote) (latency : Z)
    (path : string) (n : Z) (sa : option string) (t : option Z) :
  listPath self latency path n sa t =
    if timed_out latency t then Rejected "timeout"
    else Resolved (slice0 (apply_startAfter sa (own_keys self path)) n).
Proof.
  unfold listPath, own_keys. cbn zeta.
  destruct (timed_out latency t); [reflexivity|].
  destruct (truthy (_dataAtpath self path)); [reflexivity|].
  now rewrite apply_startAfter_nil, slice0_nil.
Qed.

Lemma page_unfold {realm : Realm}
    (self : FakeListRemote) (latency : Z) (path : string)
    (n : Z) (cursor : option string) :
  page self latency path n cursor =
    slice0 (apply_startAfter cursor (own_keys self path)) n.
Proof. unfold page. now rewrite listPath_unfold. Qed.

(** ** The startAfter cursor and the limit *)

Section Listing.
Import JsString JsStringFacts.

Context {realm : Realm}.

Variable self : FakeListRemote.
Variable latency : Z.
Variable path : string.

Lemma filtered_after (s : string) (l : list string) :
  Forall (lt s) (filter (fun key => gtb key s) l).
Proof.
  rewrite Forall_forall. intros k Hk. apply filter_In in Hk.
  now apply gtb_lt.
Qed.

Lemma apply_startAfter_filter (s : string) (l : list string) :
  s <> "" \/ ~ In "" l ->
  apply_startAfter (Some s) l = filter (fun key => gtb key s) l.
Proof.
  intros H. simpl. destruct (nonempty s) eqn:E; [reflexivity|].
  apply nonempty_false in E. subst s.
  destruct H as [H|H]; [congruence|]. symmetry. now apply filter_gt_empty.
Qed.

(** C1 (amended): for a cursor that is not the empty string, or a node
    without an empty key, and a positive [numChildren], [listPath] yields
    only keys strictly greater than the cursor, at most [numChildren] of
    them, namely the first [numChildren] keys of the filtered key list;
    it fails only by timing out. *)
Theorem listPath_filters_then_truncates (n : Z) (s : string)
    (timeout : option Z) :
  0 < n ->
  s <> "" \/ ~ In "" (own_keys self path) ->
  filters_then_truncates self latency path n s timeout.
Proof.
  intros Hn Hs. unfold filters_then_truncates.
  rewrite listPath_unfold.
  destruct (timed_out latency timeout); [reflexivity|].
  rewrite (apply_startAfter_filter _ _ Hs), slice0_nonneg by lia.
  split; [|split].
  - apply Forall_forall. intros k Hk. apply in_firstn_in in Hk.
    revert k Hk. apply Forall_forall, filtered_after.
  - pose proof (firstn_le_length (Z.to_nat n)
      (filter (fun key => gtb key s) (own_keys self path))). lia.
  - reflexivity.
Qed.

(** C3 (amended): when the node lists its own keys in strictly increasing
    order, every page is strictly increasing; when moreover no key is
    the empty string, the page asked for with the last key of a page
    repeats none of its keys. *)
Theorem listPath_sorted_store_ordered :
  strictly_increasing (own_keys self path) ->
  (forall lat n sa timeout, keys_increase self lat path n sa timeout)
  /\ (~ In "" (own_keys self path) -> pages_disjoint self path).
Proof.
  intros Hs. split.
  - intros lat n sa timeout. unfold keys_increase.
    rewrite listPath_unfold. destruct (timed_out lat timeout); [reflexivity|].
    destruct (slice0_prefix (apply_startAfter sa (own_keys self path)) n)
      as [m ->].
    now apply sorted_firstn, apply_startAfter_sorted.
  - intros Hne lat n sa timeout lat' n' timeout' ks c ks' H1 Hc H2 k Hk' Hk.
    rewrite listPath_unfold in H1, H2.
    destruct (timed_out lat timeout); [discriminate|].
    destruct (timed_out lat' timeout'); [discriminate|].
    assert (E1 : ks = slice0 (apply_startAfter sa (own_keys self path)) n)
      by congruence.
    assert (E2 : ks' = slice0 (apply_startAfter (Some c)
                                 (own_keys self path)) n')
      by congruence.
    subst ks ks'. clear H1 H2.
    destruct (slice0_prefix (apply_startAfter sa (own_keys self path)) n)
      as [m Em].
    rewrite Em in Hc, Hk.
    assert (Hsorted : strictly_increasing
              (firstn m (apply_startAfter sa (own_keys self path))))
      by now apply sorted_firstn, apply_startAfter_sorted.
    assert (Hc_in : In c (own_keys self path)).
    { apply (apply_startAfter_incl sa). eapply in_firstn_in.
      apply last_key_In. exact Hc. }
    destruct (slice0_prefix
                (apply_startAfter (Some c) (own_keys self path)) n')
      as [m' Em'].
    rewrite Em' in Hk'. apply in_firstn_in in Hk'.
    rewrite apply_startAfter_filter in Hk' by (right; exact Hne).
    apply filter_In in Hk'. destruct Hk' as [_ Hgt]. apply gtb_lt in Hgt.
    destruct (sorted_le_last _ _ Hsorted Hc k Hk) as [->|Hlt].
    + exact (lt_irrefl _ Hgt).
    + exact (lt_asym _ _ Hgt Hlt).
Qed.

End Listing.

(** Filtering first matters: after ["2"], two keys are ["3"] and ["4"],
    while the first two keys hold nothing after ["2"]. *)
Example filter_then_limit_differs :
  listPath fakeDb 0 "/" 2 (Some "2") None = Resolved ["3"; "4"]
  /\ filter (fun key => JsString.gtb key "2")
       (slice0 (own_keys fakeDb "/") 2) = [].
Proof. split; reflexivity. Qed.

(** C1, counterexample: on a node with the empty key, the empty cursor
    yields the empty key, which is not greater than the cursor. *)
Lemma listPath_empty_cursor_keeps_empty_key :
  0 < 1 /\ ~ filters_then_truncates emptyKeyDb 0 "/" 1 "" None.
Proof.
  split; [lia|]. unfold filters_then_truncates.
  change (listPath emptyKeyDb 0 "/" 1 (Some "") None) with (Resolved [""]).
  intros [H _]. inversion H as [|? ? Hlt _]; subst.
  exact (JsStringFacts.lt_irrefl "" Hlt).
Qed.

Lemma listPath_filters_then_truncates_witness :
  filters_then_truncates fakeDb 0 "/" 1 "3" None.
Proof.
  apply listPath_filters_then_truncates; [lia|].
  left. discriminate.
Defined.

(** C3, counterexample: the keys ["2"] and ["10"] are listed in numeric
    order, which is not the order of strings. *)
Lemma listPath_numeric_keys_not_increasing :
  ~ sibling_keys_ordered numericKeysDb "/".
Proof.
  intros [H _]. specialize (H 0 2 None None). unfold keys_increase in H.
  change (listPath numericKeysDb 0 "/" 2 None None)
    with (Resolved ["2"; "10"]) in H.
  inversion H as [|? ? _ Hx]; subst. inversion Hx as [|? ? Hlt _]; subst.
  discriminate Hlt.
Qed.

Lemma listPath_sorted_store_ordered_witness :
  sibling_keys_ordered fakeDb "/".
Proof.
  assert (Hs : strictly_increasing (own_keys fakeDb "/")).
  { unfold strictly_increasing.
    change (own_keys fakeDb "/") with ["1"; "2"; "3"; "4"].
    repeat constructor. }
  destruct (listPath_sorted_store_ordered fakeDb "/" Hs) as [Hinc Hdis].
  split; [exact Hinc|]. apply Hdis.
  change (own_keys fakeDb "/") with ["1"; "2"; "3"; "4"].
  simpl. intuition discriminate.
Defined.

(** ** Paging with cursors *)

Section Paging.
Import JsString JsStringFacts.

Context {realm : Realm}.

Variable self : FakeListRemote.
Variable latency : Z.
Variable path : string.
Variable n : Z.

Hypothesis n_positive : 0 < n.
Hypothesis keys_sorted : strictly_increasing (own_keys self path).
Hypothesis no_empty_key : ~ In "" (own_keys self path).

Lemma page_after_prefix (K : nat) :
  page self latency path n (last_key (firstn K (own_keys self path))) =
    firstn (Z.to_nat n) (skipn K (own_keys self path)).
Proof.
  rewrite page_unfold, slice0_nonneg by lia. f_equal.
  pose proof (apply_startAfter_rest (firstn K (own_keys self path))
                (skipn K (own_keys self path))) as H.
  rewrite firstn_skipn in H. now apply H.
Qed.

Lemma cursor_at_prefix (i : nat) :
  cursor_at self latency path n i =
    last_key (firstn (i * Z.to_nat n) (own_keys self path)).
Proof.
  induction i as [|i IH]; [reflexivity|].
  cbn [cursor_at]. rewrite IH, page_after_prefix. unfold next_cursor.
  rewrite <- last_key_app, <- firstn_plus. f_equal. f_equal. lia.
Qed.

Lemma nth_page_chunk (i : nat) :
  nth_page self latency path n i =
    firstn (Z.to_nat n) (skipn (i * Z.to_nat n) (own_keys self path)).
Proof.
  unfold nth_page. now rewrite cursor_at_prefix, page_after_prefix.
Qed.

Lemma visited_prefix (m : nat) :
  visited self latency path n m =
    firstn (m * Z.to_nat n) (own_keys self path).
Proof.
  unfold visited. induction m as [|m IH]; [reflexivity|].
  rewrite seq_S, map_app, concat_app, IH. cbn [map List.concat Nat.add].
  rewrite app_nil_r, nth_page_chunk, <- firstn_plus. f_equal. lia.
Qed.

(** C2 (amended): when the node lists its own keys in strictly increasing
    order, none of them empty, and [numChildren] is positive, paging with
    the previous page's last key as cursor visits every key of the path
    exactly once and in order, and after a page with fewer than
    [numChildren] keys every later page is empty. *)
Theorem paging_visits_every_key_once :
  pagination_complete self latency path n.
Proof.
  assert (HN : (1 <= Z.to_nat n)%nat) by lia.
  split; [|split].
  - intros m Hm. rewrite visited_prefix. apply firstn_all2.
    pose proof (Nat.mul_le_mono_l 1 (Z.to_nat n) m HN). lia.
  - intros m. rewrite visited_prefix.
    exact (sorted_NoDup _ (sorted_firstn (m * Z.to_nat n) _ keys_sorted)).
  - intros i Hshort j Hij.
    rewrite nth_page_chunk in *.
    rewrite length_firstn, length_skipn in Hshort.
    assert (Hlen : (List.length (own_keys self path) <= j * Z.to_nat n)%nat).
    { pose proof (Nat.mul_le_mono_r (S i) j (Z.to_nat n) Hij). lia. }
    rewrite skipn_all2 by exact Hlen. apply firstn_nil.
Qed.

End Paging.

(** C2, counterexample: with the keys ["2"] and ["10"] and pages of one key,
    the second call, with cursor ["2"], yields nothing: ["10"] is never
    visited. *)
Lemma paging_skips_numeric_key :
  0 < 1 /\ ~ pagination_complete numericKeysDb 0 "/" 1.
Proof.
  split; [lia|]. intros [H _]. specialize (H 2%nat).
  change (own_keys numericKeysDb "/") with ["2"; "10"] in H.
  change (visited numericKeysDb 0 "/" 1 2) with ["2"] in H.
  specialize (H (le_n 2)). discriminate H.
Qed.

Lemma paging_visits_every_key_once_witness :
  pagination_complete fakeDb 0 "/" 2.
Proof.
  apply paging_visits_every_key_once.
  - lia.
  - unfold strictly_increasing.
    change (own_keys fakeDb "/") with ["1"; "2"; "3"; "4"].
    repeat constructor.
  - change (own_keys fakeDb "/") with ["1"; "2"; "3"; "4"].
    simpl. intuition discriminate.
Defined.

(** ** Timeouts *)

Lemma timed_out_spec (latency t : Z) :
  timed_out latency (Some t) = true <-> t <> 0 /\ t <= latency.
Proof.
  unfold timed_out. rewrite andb_true_iff, negb_true_iff, Z.eqb_neq.
  rewrite Z.geb_le. tauto.
Qed.

(** C5 (amended): with a timeout that is not zero, a call whose latency
    reaches the timeout is rejected with the timeout error, and a call that
    yields keys has stayed below the timeout. *)
Theorem listPath_nonzero_timeout_enforced {realm : Realm}
    (self : FakeListRemote)
    (latency : Z) (path : string) (n : Z) (sa : option string) (t : Z) :
  t <> 0 -> timeout_enforced self latency path n sa t.
Proof.
  intros Ht. unfold timeout_enforced. rewrite listPath_unfold.
  destruct (timed_out latency (Some t)) eqn:E.
  - split; [reflexivity|discriminate].
  - split.
    + intros Hle. assert (timed_out latency (Some t) = true)
        by (apply timed_out_spec; tauto). congruence.
    + intros ks _. destruct (Z.lt_ge_cases latency t) as [H|H]; [exact H|].
      assert (timed_out latency (Some t) = true)
        by (apply timed_out_spec; tauto). congruence.
Qed.

Lemma listPath_nonzero_timeout_enforced_witness :
  timeout_enforced fakeDb 7 "/" 4 None 5.
Proof.
  apply listPath_nonzero_timeout_enforced. lia.
Defined.

(** C5, counterexample: a timeout of zero is given and reached, and the
    call yields its keys all the same. *)
Lemma listPath_zero_timeout_not_enforced :
  ~ timeout_enforced fakeDb 0 "/" 4 None 0.
Proof.
  intros [H _]. specialize (H (Z.le_refl 0)). discriminate H.
Qed.


(** C10: the empty string as cursor is no cursor: the call does what the
    call without [startAfter] does, and without a timeout that is the
    unfiltered first page. *)
Theorem listPath_empty_startAfter_is_absent {realm : Realm}
    (self : FakeListRemote)
    (latency : Z) (path : string) (n : Z) (timeout : option Z) :
  listPath self latency path n (Some "") timeout
    = listPath self latency path n None timeout
  /\ listPath self latency path n (Some "") None
    = Resolved (slice0 (own_keys self path) n).
Proof.
  rewrite !listPath_unfold. split; reflexivity.
Qed.

(** The assertions of the test suite, "should return limit the number of
    subpaths returned". *)
Example fakeDb_test_suite :
  map (fun '(n, sa) => listPath fakeDb 0 "/" n sa None)
    [(4, None); (3, None); (2, None); (1, None);
     (4, Some "1"); (4, Some "2"); (4, Some "3"); (4, Some "4");
     (3, Some "1"); (3, Some "2"); (3, Some "3"); (3, Some "3");
     (3, Some "4");
     (1, Some "1"); (1, Some "2"); (1, Some "3"); (1, Some "4")]
  = map Resolved
      [["1"; "2"; "3"; "4"]; ["1"; "2"; "3"]; ["1"; "2"]; ["1"];
       ["2"; "3"; "4"]; ["3"; "4"]; ["4"]; [];
       ["2"; "3"; "4"]; ["3"; "4"]; ["4"]; ["4"];
       [];
       ["2"]; ["3"]; ["4"]; []].
Proof. reflexivity. Qed.

(** C6: the six listings of the store with children ["1"] to ["4"]. *)
Theorem listPath_four_children {realm : Realm}
    (latency : Z) :
  listPath fakeDb latency "/" 4 None None = Resolved ["1"; "2"; "3"; "4"]
  /\ listPath fakeDb latency "/" 2 None None = Resolved ["1"; "2"]
  /\ listPath fakeDb latency "/" 4 (Some "2") None = Resolved ["3"; "4"]
  /\ listPath fakeDb latency "/" 4 (Some "4") None = Resolved []
  /\ listPath fakeDb latency "/" 1 (Some "3") None = Resolved ["4"]
  /\ listPath fakeDb latency "/" 3 (Some "4") None = Resolved [].
Proof.
  repeat split; reflexivity.
Qed.

(** ** Resolving a path *)

Module PathFacts.
Import JsString JsStringFacts.

Lemma descend_empty_segment {realm : Realm}
    (d : JsVal) (p : string) :
  nonempty p = false -> descend d p = d.
Proof. intros H. unfold descend. now rewrite H, andb_false_r. Qed.

Lemma fold_descend_filter {realm : Realm}
    (segs : list string) (d : JsVal) :
  fold_left descend segs d = fold_left descend (filter nonempty segs) d.
Proof.
  revert d. induction segs as [|p segs IH]; intros d; [reflexivity|].
  simpl. destruct (nonempty p) eqn:E.
  - simpl. apply IH.
  - rewrite descend_empty_segment by exact E. apply IH.
Qed.

Lemma dataAtpath_segments {realm : Realm}
    (self : FakeListRemote) (path : string) :
  _dataAtpath self path = fold_left descend (segments path) (JNode (data self)).
Proof. unfold _dataAtpath, segments. apply fold_descend_filter. Qed.

Lemma split_slash_free (s : string) :
  Forall (fun p => slash_free p = true) (split s).
Proof.
  induction s as [|c s IH]; simpl.
  - repeat constructor.
  - destruct (is_slash c) eqn:E.
    + constructor; [reflexivity|exact IH].
    + destruct (split s) as [|piece pieces].
      * constructor; [|constructor]. simpl. now rewrite E.
      * inversion IH; subst. constructor; [|assumption].
        simpl. now rewrite E.
Qed.

Lemma split_nonnil (s : string) : split s <> [].
Proof.
  destruct s as [|c s]; simpl; [discriminate|].
  destruct (is_slash c); [discriminate|].
  destruct (split s); discriminate.
Qed.

Lemma split_app (x y : string) :
  split (x ++ String "/" y) = split x ++ split y.
Proof.
  induction x as [|c x IH]; [reflexivity|].
  cbn [append split]. rewrite IH.
  destruct (is_slash c); [reflexivity|].
  pose proof (split_nonnil x) as Hx.
  destruct (split x) as [|piece pieces]; [contradiction|reflexivity].
Qed.

(** A doubled slash yields one empty piece more, nothing else. *)
Lemma segments_doubled_slash (c : ascii) (x y : string) :
  segments (String c (x ++ "//" ++ y)) = segments (String c (x ++ "/" ++ y)).
Proof.
  unfold segments. cbn [slice1 append].
  rewrite (split_app x (String "/" y)), (split_app x y).
  rewrite !filter_app. reflexivity.
Qed.

(** So does a trailing slash. *)
Lemma segments_trailing_slash (c : ascii) (x : string) :
  segments (String c (x ++ "/")) = segments (String c x).
Proof.
  unfold segments. cbn [slice1]. rewrite (split_app x "").
  rewrite filter_app. cbn. apply app_nil_r.
Qed.

Lemma split_append (a r : string) :
  slash_free a = true -> split (a ++ String "/" r) = a :: split r.
Proof.
  induction a as [|c a IH]; simpl; intros H; [reflexivity|].
  apply andb_true_iff in H. destruct H as [Hc Ha].
  apply negb_true_iff in Hc. rewrite Hc, (IH Ha). reflexivity.
Qed.

Lemma split_single (a : string) : slash_free a = true -> split a = [a].
Proof.
  induction a as [|c a IH]; simpl; intros H; [reflexivity|].
  apply andb_true_iff in H. destruct H as [Hc Ha].
  apply negb_true_iff in Hc. rewrite Hc, (IH Ha). reflexivity.
Qed.

Lemma split_join (seg : string) (segs : list string) :
  Forall (fun p => slash_free p = true) (seg :: segs) ->
  split (join (seg :: segs)) = seg :: segs.
Proof.
  revert seg. induction segs as [|s segs IH]; intros seg H.
  - inversion H; subst. now apply split_single.
  - inversion H as [|? ? Hseg Hrest]; subst.
    unfold join. cbn [String.concat]. cbn [append].
    rewrite split_append by exact Hseg. f_equal. now apply IH.
Qed.

Lemma filter_idempotent {A : Type} (f : A -> bool) (l : list A) :
  filter f (filter f l) = filter f l.
Proof.
  induction l as [|x l IH]; simpl; [reflexivity|].
  destruct (f x) eqn:E; simpl; [rewrite E|]; now rewrite ?IH.
Qed.

Lemma segments_slash_free (path : string) :
  Forall (fun p => slash_free p = true) (segments path).
Proof.
  unfold segments. rewrite Forall_forall. intros p Hp.
  apply filter_In in Hp. destruct Hp as [Hp _].
  revert p Hp. apply Forall_forall, split_slash_free.
Qed.

Lemma segments_normalize (path : string) :
  segments (normalize path) = segments path.
Proof.
  unfold normalize. unfold segments at 1. cbn [slice1].
  pose proof (segments_slash_free path) as Hfree.
  destruct (segments path) as [|seg segs] eqn:E; [reflexivity|].
  rewrite split_join by exact Hfree. rewrite <- E.
  unfold segments. apply filter_idempotent.
Qed.

Lemma listPath_same_segments {realm : Realm}
    (self : FakeListRemote) (latency : Z)
    (p q : string) (n : Z) (sa : option string) (timeout : option Z) :
  segments p = segments q ->
  listPath self latency p n sa timeout = listPath self latency q n sa timeout.
Proof.
  intros H. rewrite !listPath_unfold. unfold own_keys.
  now rewrite !dataAtpath_segments, H.
Qed.

Lemma descend_childless {realm : Realm}
    (d : JsVal) (p : string) :
  childless d -> childless (descend d p).
Proof.
  unfold descend. destruct d as [| |[z|o]|b]; simpl; try tauto.
  destruct (negb (z =? 0) && nonempty p); simpl; tauto.
Qed.

Lemma fold_descend_childless {realm : Realm}
    (segs : list string) (d : JsVal) :
  childless d -> childless (fold_left descend segs d).
Proof.
  revert d. induction segs as [|p segs IH]; intros d H; [exact H|].
  simpl. now apply IH, descend_childless.
Qed.

Lemma descend_object {realm : Realm} (o : list (string * Node)) (s : string) :
  nonempty s = true ->
  descend (JNode (Internal o)) s =
    match JsObject.get o s with
    | Some child => JNode child
    | None =>
        match inherited s with
        | Some b => JBuiltin b
        | None => JUndefined
        end
    end.
Proof. intros Hs. unfold descend. cbn [truthy andb]. now rewrite Hs. Qed.

(** A walk along own properties ends at the node the tree holds there; a
    walk that leaves the tree at a key with nothing inherited ends at
    nothing. *)
Lemma fold_descend_lookup {realm : Realm} (segs : list string) (t : Node) :
  Forall (fun p => nonempty p = true) segs ->
  match lookup_path segs t with
  | Some t' => fold_left descend segs (JNode t) = JNode t'
  | None =>
      (forall k, first_missing segs t = Some k -> inherited k = None) ->
      childless (fold_left descend segs (JNode t))
  end.
Proof.
  revert t. induction segs as [|s segs IH]; intros t H; [reflexivity|].
  inversion H as [|? ? Hs Hsegs]; subst.
  destruct t as [z|o].
  - cbn [lookup_path]. intros _.
    apply fold_descend_childless with (d := JNode (Leaf z)).
    exact I.
  - cbn [lookup_path first_missing fold_left].
    rewrite (descend_object o s Hs).
    destruct (JsObject.get o s) as [child|].
    + now apply IH.
    + intros Hk. rewrite (Hk s eq_refl). now apply fold_descend_childless.
Qed.

Lemma segments_nonempty (path : string) :
  Forall (fun p => nonempty p = true) (segments path).
Proof.
  unfold segments. rewrite Forall_forall. intros p Hp.
  now apply filter_In in Hp.
Qed.

Lemma childless_no_keys {realm : Realm} (d : JsVal) :
  childless d -> (if truthy d then Object_keys d else []) = [].
Proof.
  destruct d as [| |[z|o]|b]; simpl; try tauto.
  now destruct (negb (z =? 0)).
Qed.


End PathFacts.




(** C9: empty segments do not count: a path lists what its normal form
    lists; a doubled slash lists what a single one lists and a trailing
    slash changes nothing, as for ["/a//b"] and ["/a/"]; and ["/"] is the
    root of the tree. *)
Theorem listPath_ignores_empty_segments {realm : Realm}
    (self : FakeListRemote) (latency : Z)
    (n : Z) (sa : option string) (timeout : option Z) :
  (forall path, listPath self latency path n sa timeout
                = listPath self latency (normalize path) n sa timeout)
  /\ (forall c x y,
        listPath self latency (String c (x ++ "//" ++ y)) n sa timeout
        = listPath self latency (String c (x ++ "/" ++ y)) n sa timeout)
  /\ (forall c x,
        listPath self latency (String c (x ++ "/")) n sa timeout
        = listPath self latency (String c x) n sa timeout)
  /\ listPath self latency "/a/" n sa timeout
     = listPath self latency "/a" n sa timeout
  /\ listPath self latency "/a//b" n sa timeout
     = listPath self latency "/a/b" n sa timeout
  /\ normalize "/a/" = "/a" /\ normalize "/a//b" = "/a/b"
  /\ _dataAtpath self "/" = JNode (data self).
Proof.
  split; [|split; [|split; [|split; [|split; [|split; [|split]]]]]].
  - intros path. apply PathFacts.listPath_same_segments.
    symmetry. apply PathFacts.segments_normalize.
  - intros c x y. apply PathFacts.listPath_same_segments.
    apply PathFacts.segments_doubled_slash.
  - intros c x. apply PathFacts.listPath_same_segments.
    apply PathFacts.segments_trailing_slash.
  - now apply PathFacts.listPath_same_segments.
  - now apply PathFacts.listPath_same_segments.
  - reflexivity.
  - reflexivity.
  - unfold _dataAtpath. cbn [JsString.slice1 JsString.split fold_left].
    now apply PathFacts.descend_empty_segment.
Qed.

(** ** The orchestrator never retries a delete that was too large *)

Module OrchestratorFacts.
Import Orchestrator OrchestratorProps.
Import JsString JsStringFacts.

(** *** Replacing a job in the table *)

Lemma set_job_split (js : list DeleteJob) (j : nat) (old new : DeleteJob) :
  nth_error js j = Some old ->
  exists l1 l2, js = l1 ++ old :: l2 /\ set_job j new js = l1 ++ new :: l2.
Proof.
  revert js. induction j as [|j IH]; intros [|x js] H; try discriminate.
  - injection H as ->. now exists [], js.
  - destruct (IH js H) as (l1 & l2 & E1 & E2).
    exists (x :: l1), l2. split; [now rewrite E1 at 1|].
    unfold set_job in *.
    change (x :: (firstn j js ++ new :: skipn (S j) js)
            = x :: (l1 ++ new :: l2)).
    now f_equal.
Qed.

Lemma set_job_In (js : list DeleteJob) (j : nat) (old new c : DeleteJob) :
  nth_error js j = Some old ->
  In c (set_job j new js) -> c = new \/ (In c js).
Proof.
  intros H Hc. destruct (set_job_split js j old new H) as (l1 & l2 & -> & E).
  rewrite E in Hc. rewrite in_app_iff in *. simpl in *.
  intuition auto.
Qed.

Lemma set_job_new (js : list DeleteJob) (j : nat) (old new : DeleteJob) :
  nth_error js j = Some old -> In new (set_job j new js).
Proof.
  intros H. destruct (set_job_split js j old new H) as (l1 & l2 & _ & ->).
  apply in_or_app. right. now left.
Qed.

Lemma set_job_keeps (js : list DeleteJob) (j : nat) (old new c : DeleteJob) :
  nth_error js j = Some old ->
  In c js -> c = old \/ In c (set_job j new js).
Proof.
  intros H Hc. destruct (set_job_split js j old new H) as (l1 & l2 & E1 & E2).
  rewrite E2. rewrite E1 in Hc. rewrite in_app_iff in *. simpl in *.
  intuition auto.
Qed.

Lemma set_job_paths (js : list DeleteJob) (j : nat) (old new : DeleteJob) :
  nth_error js j = Some old -> jpath new = jpath old ->
  map jpath (set_job j new js) = map jpath js.
Proof.
  intros H Hp. destruct (set_job_split js j old new H) as (l1 & l2 & E1 & E2).
  rewrite E2. rewrite E1. rewrite !map_app. simpl. now rewrite Hp.
Qed.

(** Two jobs of a table without repeated paths that have the same path
    are the same job. *)
Lemma same_path_same_job (js : list DeleteJob) (a b : DeleteJob) :
  NoDup (map jpath js) -> In a js -> In b js -> jpath a = jpath b -> a = b.
Proof.
  induction js as [|x js IH]; simpl; intros Hnd Ha Hb Hp; [contradiction|].
  inversion Hnd as [|? ? Hx Hnd']; subst.
  destruct Ha as [->|Ha], Hb as [->|Hb]; auto.
  - exfalso. apply Hx. rewrite Hp. now apply in_map.
  - exfalso. apply Hx. rewrite <- Hp. now apply in_map.
Qed.

(** *** The order of the keys of a page *)

Lemma increasing_sorted (pg : list string) :
  increasing pg = true -> strictly_increasing pg.
Proof.
  unfold strictly_increasing.
  induction pg as [|k pg IH]; simpl; intros H; [constructor|].
  apply andb_true_iff in H. destruct H as [Hk Hpg].
  constructor; [now apply IH|].
  rewrite forallb_forall in Hk. apply Forall_forall. intros k' Hk'.
  now apply gtb_lt, Hk.
Qed.

Lemma advance_last (cursor : option string) (pg : list string) (k : string) :
  increasing pg = true -> In k pg ->
  exists c, advance cursor pg = Some c /\ (k = c \/ lt k c).
Proof.
  intros Hinc Hk. unfold advance.
  destruct (last_key pg) as [c|] eqn:E.
  - exists c. split; [reflexivity|].
    eapply sorted_le_last; eauto using increasing_sorted.
  - exfalso. clear -E Hk. destruct pg as [|x pg]; [contradiction|].
    clear Hk. revert x E.
    induction pg as [|y pg IH]; intros x E; simpl in E; [discriminate|].
    eauto.
Qed.

Lemma advance_grows (cur : string) (pg : list string) :
  forallb (after_cursor (Some cur)) pg = true ->
  exists c, advance (Some cur) pg = Some c /\ (cur = c \/ lt cur c).
Proof.
  intros H. unfold advance. destruct (last_key pg) as [c|] eqn:E.
  - exists c. split; [reflexivity|]. right.
    rewrite forallb_forall in H. apply gtb_lt, (H c).
    now apply last_key_In.
  - exists cur. auto.
Qed.

Lemma le_lt_trans (a b c : string) :
  (a = b \/ lt a b) -> (b = c \/ lt b c) -> a = c \/ lt a c.
Proof.
  intros [->|Hab] [->|Hbc]; auto. right. eapply lt_trans; eauto.
Qed.

End OrchestratorFacts.

Module OrchestratorInvariant.
Import Orchestrator OrchestratorProps OrchestratorFacts.
Import JsString JsStringFacts.

(** *** The job table stays well formed *)

Lemma parent_survives (js : list DeleteJob) (j : nat) (old new : DeleteJob)
    (parent : DeleteJob) (k : string) :
  nth_error js j = Some old -> jpath new = jpath old ->
  (forall k, observed old k -> observed new k) ->
  In parent js -> observed parent k ->
  exists parent', In parent' (set_job j new js)
                  /\ jpath parent' = jpath parent /\ observed parent' k.
Proof.
  intros Hj Hp Hobs Hin Hk.
  destruct (set_job_keeps js j old new parent Hj Hin) as [->|Hin'].
  - exists new. eauto using set_job_new.
  - exists parent. auto.
Qed.

Lemma wf_replace (root : Path) (js : list DeleteJob) (j : nat)
    (old new : DeleteJob) :
  well_formed root js -> nth_error js j = Some old ->
  jpath new = jpath old ->
  (forall k, observed old k -> observed new k) ->
  well_formed root (set_job j new js).
Proof.
  intros (Hnd & Hpar & Hlen) Hj Hp Hobs.
  assert (Hold : In old js) by (eapply nth_error_In; eauto).
  assert (Hsame : forall c, In c (set_job j new js) ->
                            exists c', In c' js /\ jpath c = jpath c').
  { intros c Hc. destruct (set_job_In js j old new c Hj Hc) as [->|Hc'].
    - exists old. auto.
    - exists c. auto. }
  split; [|split].
  - now rewrite (set_job_paths js j old new Hj Hp).
  - intros c Hc. destruct (Hsame c Hc) as (c' & Hc' & ->).
    destruct (Hpar c' Hc') as [Hroot|(parent & k & Hin & Hpath & Hk)].
    + now left.
    + right.
      destruct (parent_survives js j old new parent k Hj Hp Hobs Hin Hk)
        as (parent' & Hin' & Hpath' & Hk').
      exists parent', k. rewrite Hpath'. auto.
  - intros c Hc. destruct (Hsame c Hc) as (c' & Hc' & ->). auto.
Qed.

(** A key after the cursor of an enumeration names no job yet. *)
Lemma fresh_child (root : Path) (js : list DeleteJob) (job : DeleteJob)
    (cur : option string) (att : nat) (k : string) :
  well_formed root js -> In job js ->
  state job = FannedOut (Paging cur att) -> after_cursor cur k = true ->
  ~ In (jpath job ++ [k]) (map jpath js).
Proof.
  intros (Hnd & Hpar & Hlen) Hjob Hst Hafter Hin.
  apply in_map_iff in Hin. destruct Hin as (c & Hc & Hc_in).
  destruct (Hpar c Hc_in) as [Hroot|(parent & k' & Hin & Hpath & Hk)].
  - pose proof (Hlen job Hjob) as Hl.
    rewrite <- Hroot, Hc, length_app in Hl. simpl in Hl. lia.
  - rewrite Hc in Hpath. apply app_inj_tail in Hpath.
    destruct Hpath as [Hpath <-].
    assert (parent = job)
      by (eapply same_path_same_job; eauto). subst parent.
    destruct Hk as (e & c0 & He & Hcur & Hle).
    rewrite Hst in He. injection He as <-. simpl in Hcur. subst cur.
    simpl in Hafter. apply gtb_lt in Hafter.
    destruct Hle as [->|Hlt].
    + exact (lt_irrefl _ Hafter).
    + exact (lt_asym _ _ Hafter Hlt).
Qed.

Lemma child_paths (p : Path) (pg : list string) :
  map jpath (map (child_job p) pg) = map (fun k => p ++ [k]) pg.
Proof. rewrite map_map. reflexivity. Qed.

Lemma wf_add_children (root : Path) (js : list DeleteJob)
    (parent : DeleteJob) (pg : list string) :
  well_formed root js -> In parent js ->
  (forall k, In k pg -> observed parent k) -> NoDup pg ->
  (forall k, In k pg -> ~ In (jpath parent ++ [k]) (map jpath js)) ->
  well_formed root (js ++ map (child_job (jpath parent)) pg).
Proof.
  intros (Hnd & Hpar & Hlen) Hparent Hobs Hpg Hfresh.
  split; [|split].
  - rewrite map_app, child_paths. apply NoDup_app.
    + exact Hnd.
    + clear -Hpg. induction Hpg as [|k pg Hk _ IH]; simpl; constructor; auto.
      intros Hin. apply in_map_iff in Hin. destruct Hin as (k' & E & Hk').
      apply app_inj_tail in E. destruct E as [_ ->]. contradiction.
    + intros q Hq Hq'. apply in_map_iff in Hq'.
      destruct Hq' as (k & <- & Hk). exact (Hfresh k Hk Hq).
  - intros c Hc. apply in_app_or in Hc. destruct Hc as [Hc|Hc].
    + destruct (Hpar c Hc) as [Hroot|(par & k & Hin & Hpath & Hk)].
      * now left.
      * right. exists par, k. auto using in_or_app.
    + apply in_map_iff in Hc. destruct Hc as (k & <- & Hk).
      right. exists parent, k. auto using in_or_app.
  - intros c Hc. apply in_app_or in Hc. destruct Hc as [Hc|Hc]; auto.
    apply in_map_iff in Hc. destruct Hc as (k & <- & Hk).
    pose proof (Hlen parent Hparent). simpl. rewrite length_app. lia.
Qed.

(** *** What the handlers do to a job *)

Lemma on_delete_path (cfg : Config) (job : DeleteJob) (r : DeleteResult) :
  jpath (fst (on_delete cfg job r)) = jpath job.
Proof.
  unfold on_delete. destruct (classify_delete r) as [[| |]|]; simpl; auto.
  now destruct (S (attempts job) <? maxAttempts cfg)%nat.
Qed.

Lemma on_delete_too_large (cfg : Config) (job : DeleteJob) :
  state (fst (on_delete cfg job PayloadTooLarge)) = FannedOut (Paging None 0).
Proof. reflexivity. Qed.

Lemma not_observed (job : DeleteJob) (k : string) :
  (forall e, state job <> FannedOut e) -> observed job k ->
  forall new, observed new k.
Proof. intros H (e & _ & He & _). now apply H in He. Qed.

Lemma on_list_spec (cfg : Config) (old : DeleteJob) (cur : option string)
    (att : nat) (r : ListResult) (new : DeleteJob)
    (children : list DeleteJob) (failed : list Path) :
  on_list cfg old cur att r = Some (new, children, failed) ->
  jpath new = jpath old
  /\ (exists e, state new = FannedOut e
                /\ forall c0, cur = Some c0 ->
                     exists c1, enum_cursor e = Some c1
                                /\ (c0 = c1 \/ lt c0 c1))
  /\ exists pg, children = map (child_job (jpath old)) pg /\ NoDup pg
                /\ (forall k, In k pg -> after_cursor cur k = true)
                /\ (forall k, In k pg -> observed new k).
Proof.
  unfold on_list. destruct r as [pg|kind].
  - destruct (conforming cfg cur pg) eqn:Hconf; [|discriminate].
    intros H. injection H as <- <- <-.
    unfold conforming in Hconf. rewrite !andb_true_iff in Hconf.
    destruct Hconf as [[Hafter Hinc] _].
    split; [reflexivity|]. split.
    + exists (if (List.length pg <? pageSize cfg)%nat
              then Exhausted (advance cur pg)
              else Paging (advance cur pg) 0).
      split; [reflexivity|]. intros c0 ->.
      destruct (advance_grows c0 pg Hafter) as (c1 & E & Hle).
      exists c1. split; [|exact Hle].
      now destruct (List.length pg <? pageSize cfg)%nat.
    + exists pg. split; [reflexivity|]. split; [|split].
      * now apply sorted_NoDup, increasing_sorted.
      * now apply forallb_forall.
      * intros k Hk.
        destruct (advance_last cur pg k Hinc Hk) as (c & E & Hle).
        exists (if (List.length pg <? pageSize cfg)%nat
                then Exhausted (advance cur pg)
                else Paging (advance cur pg) 0), c.
        split; [reflexivity|]. split; [|exact Hle].
        now destruct (List.length pg <? pageSize cfg)%nat.
  - intros H.
    assert (Hcases :
      (new = mkJob (jpath old) (attempts old) (FannedOut (Paging cur (S att)))
       \/ new = mkJob (jpath old) (attempts old) (FannedOut (Aborted cur)))
      /\ children = []).
    { destruct (classify_error kind);
        [destruct (S att <? maxAttempts cfg)%nat| |];
        injection H as <- <- <-; auto. }
    destruct Hcases as [Hnew ->].
    split; [now destruct Hnew as [->| ->]|]. split.
    + destruct Hnew as [->| ->]; eexists; (split; [reflexivity|]);
        intros c0 ->; exists c0; auto.
    + exists []. split; [reflexivity|]. split; [constructor|].
      split; intros k [].
Qed.

End OrchestratorInvariant.

Module OrchestratorRuns.
Import Orchestrator OrchestratorProps OrchestratorFacts OrchestratorInvariant.

Lemma path_eq_dec (p q : Path) : {p = q} + {p <> q}.
Proof. apply list_eq_dec, string_dec. Qed.

(** A fanned-out job is not the job a step takes out of another state. *)
Lemma fanned_out_kept (js : list DeleteJob) (j : nat) (old new job : DeleteJob)
    (en : Enumeration) :
  nth_error js j = Some old -> (forall e, state old <> FannedOut e) ->
  In job js -> state job = FannedOut en -> In job (set_job j new js).
Proof.
  intros Hj Hold Hin Hst.
  destruct (set_job_keeps js j old new job Hj Hin) as [->|H]; [|exact H].
  now apply Hold in Hst.
Qed.

Lemma step_start (root : Path) (s : Run) (j : nat) (old : DeleteJob) :
  invariant root s -> nth_error (jobs s) j = Some old ->
  state old = Pending ->
  invariant root
    (mkRun (set_job j (mkJob (jpath old) (attempts old) Attempting) (jobs s))
           (failures s) (trace s)).
Proof.
  intros [Hwf Htr] Hj Hst.
  assert (Hnot : forall e, state old <> FannedOut e)
    by (rewrite Hst; discriminate).
  split.
  - eapply wf_replace; eauto. intros k Hk.
    eapply not_observed; eauto.
  - intros later earlier i p E. simpl in E.
    destruct (Htr later earlier i p E)
      as (Hdel & job & en & Hin & Hp & Hen & Hev).
    split; [exact Hdel|]. exists job, en. simpl.
    eauto 6 using fanned_out_kept.
Qed.

Lemma step_delete (cfg : Config) (root : Path) (s : Run) (j : nat)
    (old : DeleteJob) (r : DeleteResult) :
  invariant root s -> nth_error (jobs s) j = Some old ->
  state old = Attempting ->
  invariant root
    (mkRun (set_job j (fst (on_delete cfg old r)) (jobs s))
           (snd (on_delete cfg old r) ++ failures s)
           (DeleteCall j (jpath old) r :: trace s)).
Proof.
  intros [Hwf Htr] Hj Hst.
  assert (Hnot : forall e, state old <> FannedOut e)
    by (rewrite Hst; discriminate).
  assert (Hold : In old (jobs s)) by (eapply nth_error_In; eauto).
  split.
  - eapply wf_replace; eauto using on_delete_path. intros k Hk.
    eapply not_observed; eauto.
  - intros later earlier i p E. cbn [trace jobs] in *.
    destruct later as [|ev later].
    + injection E as -> <- -> _. split; [intros e []|].
      exists (fst (on_delete cfg old PayloadTooLarge)), (Paging None 0).
      split; [eapply set_job_new; eauto|]. auto.
    + injection E as <- E.
      destruct (Htr later earlier i p E)
        as (Hdel & job & en & Hin & Hp & Hen & Hev).
      split.
      * intros e [<-|He]; [|now apply Hdel].
        simpl. intros Hsame.
        assert (old = job).
        { destruct Hwf as (Hnd & _). eapply same_path_same_job; eauto.
          congruence. }
        subst job. now apply Hnot in Hen.
      * exists job, en. split; [eapply fanned_out_kept; eauto|].
        split; [exact Hp|]. split; [exact Hen|].
        destruct Hev as [->|(e & He & Hl)]; [now left|].
        right. exists e. split; [now right|exact Hl].
Qed.

Lemma step_list (cfg : Config) (root : Path) (s : Run) (j : nat)
    (old new : DeleteJob) (cur : option string) (att : nat) (r : ListResult)
    (children : list DeleteJob) (failed : list Path) :
  invariant root s -> nth_error (jobs s) j = Some old ->
  state old = FannedOut (Paging cur att) ->
  on_list cfg old cur att r = Some (new, children, failed) ->
  invariant root
    (mkRun (set_job j new (jobs s) ++ children)
           (failed ++ failures s)
           (ListCall j (jpath old) cur r :: trace s)).
Proof.
  intros [Hwf Htr] Hj Hst Hon.
  assert (Hold : In old (jobs s)) by (eapply nth_error_In; eauto).
  destruct (on_list_spec _ _ _ _ _ _ _ _ Hon)
    as (Hpath & (e' & He' & Hgrow) & pg & -> & Hpg & Hafter & Hseen).
  assert (Hkeep : forall k, observed old k -> observed new k).
  { intros k (e & c0 & He & Hc0 & Hle). rewrite Hst in He.
    injection He as <-. simpl in Hc0.
    destruct (Hgrow c0 Hc0) as (c1 & Hc1 & Hle').
    exists e', c1. eauto using le_lt_trans. }
  split.
  - cbn [jobs]. rewrite <- Hpath. apply wf_add_children; auto.
    + eapply wf_replace; eauto.
    + eapply set_job_new; eauto.
    + intros k Hk. rewrite (set_job_paths _ _ _ _ Hj Hpath), Hpath.
      eapply fresh_child; eauto.
  - intros later earlier i p E. cbn [trace jobs] in *.
    destruct later as [|ev later]; [discriminate|].
    injection E as <- E.
    destruct (Htr later earlier i p E)
      as (Hdel & job & en & Hin & Hp & Hen & Hev).
    split.
    + intros e [<-|He]; [simpl; tauto|now apply Hdel].
    + destruct (path_eq_dec (jpath old) p) as [Hsame|Hdiff].
      * exists new, e'. split.
        { apply in_or_app. left. eapply set_job_new; eauto. }
        split; [congruence|]. split; [exact He'|].
        right. eexists. split; [now left|exact Hsame].
      * exists job, en. split.
        { apply in_or_app. left.
          destruct (set_job_keeps _ j old new job Hj Hin) as [->|H];
            [congruence|exact H]. }
        split; [exact Hp|]. split; [exact Hen|].
        destruct Hev as [->|(e & He & Hl)]; [now left|].
        right. exists e. split; [now right|exact Hl].
Qed.

Lemma step_invariant (cfg : Config) (root : Path) (s s' : Run) (c : Choice) :
  invariant root s -> step cfg s c = Some s' -> invariant root s'.
Proof.
  intros Hinv Hstep. destruct c as [j|j r|j r]; simpl in Hstep;
    destruct (nth_error (jobs s) j) as [old|] eqn:Hj; try discriminate.
  - destruct (state old) eqn:Hst; try discriminate.
    injection Hstep as <-. now apply step_start.
  - destruct (state old) eqn:Hst; try discriminate.
    destruct (on_delete cfg old r) as [new failed] eqn:Hon.
    injection Hstep as <-.
    pose proof (step_delete cfg root s j old r Hinv Hj Hst) as H.
    now rewrite Hon in H.
  - destruct (state old) as [| | |[cur att|cur|cur]|] eqn:Hst;
      try discriminate.
    destruct (on_list cfg old cur att r) as [[[new children] failed]|] eqn:Hon;
      [|discriminate].
    injection Hstep as <-. eapply step_list; eauto.
Qed.

Lemma init_invariant (root : Path) : invariant root (init root).
Proof.
  split.
  - split; [|split]; simpl.
    + repeat constructor. intros [].
    + intros c [<-|[]]. now left.
    + intros c [<-|[]]. simpl. lia.
  - intros [|ev later] earlier j p E; discriminate E.
Qed.

Lemma run_invariant (cfg : Config) (root : Path) (cs : list Choice)
    (s s' : Run) :
  invariant root s -> run cfg s cs = Some s' -> invariant root s'.
Proof.
  revert s. induction cs as [|c cs IH]; simpl; intros s Hinv Hrun.
  - now injection Hrun as <-.
  - destruct (step cfg s c) as [s1|] eqn:Hstep; [|discriminate].
    eauto using step_invariant.
Qed.

End OrchestratorRuns.

(** C7: in every run of the orchestrator from a root path, whatever the
    schedule and the results of the remote calls, a path whose delete came
    back with PayloadTooLarge is never the object of a later delete call;
    its job is fanned out; a listing call on that path has followed or is
    the next call its job can make; and by the time the run is complete a
    listing call on that path has followed. *)
Theorem payload_too_large_never_retried (cfg : Orchestrator.Config)
    (root : Orchestrator.Path) (cs : list Orchestrator.Choice)
    (s : Orchestrator.Run) :
  Orchestrator.run cfg (Orchestrator.init root) cs = Some s ->
  OrchestratorProps.structural_signal_respected cfg s.
Proof.
  intros Hrun.
  destruct (OrchestratorRuns.run_invariant cfg root cs _ s
              (OrchestratorRuns.init_invariant root) Hrun) as [_ Htr].
  intros later earlier j p E.
  destruct (Htr later earlier j p E)
    as (Hdel & job & en & Hin & Hp & Hen & Hev).
  split; [exact Hdel|]. split; [eauto|]. split.
  - destruct Hev as [->|Hev]; [|now left]. right.
    destruct (In_nth_error _ _ Hin) as [i Hi]. exists i.
    unfold Orchestrator.step. rewrite Hi, Hen. cbn. rewrite Hp. eauto.
  - intros Hdone. destruct Hev as [->|Hev]; [|exact Hev].
    unfold Orchestrator.complete in Hdone.
    rewrite forallb_forall in Hdone. specialize (Hdone job Hin).
    unfold Orchestrator.terminal in Hdone. rewrite Hen in Hdone. discriminate.
Qed.

Lemma payload_too_large_never_retried_witness :
  exists s,
    Orchestrator.run OrchestratorProps.sample_config
      (Orchestrator.init ["big"]) OrchestratorProps.sample_choices = Some s
    /\ Orchestrator.trace s
       = OrchestratorProps.sample_later
           ++ [Orchestrator.DeleteCall 0 ["big"] Orchestrator.PayloadTooLarge]
    /\ (forall e, In e OrchestratorProps.sample_later ->
                  ~ Orchestrator.is_delete_of ["big"] e)
    /\ (exists e, In e OrchestratorProps.sample_later
                  /\ Orchestrator.is_list_of ["big"] e).
Proof.
  eexists. split; [vm_compute; reflexivity|]. split; [reflexivity|].
  destruct (payload_too_large_never_retried OrchestratorProps.sample_config
              ["big"] OrchestratorProps.sample_choices _ eq_refl
              OrchestratorProps.sample_later [] 0%nat ["big"] eq_refl)
    as (Hdel & _ & _ & Hlist).
  split; [exact Hdel|]. apply Hlist. reflexivity.
Defined.

(** ** More on what [listPath] yields *)

Section ListingMore.
Import JsString JsStringFacts.

Context {realm : Realm}.

Variable self : FakeListRemote.
Variable latency : Z.
Variable path : string.

Lemma slice0_incl {A : Type} (l : list A) (n : Z) : incl (slice0 l n) l.
Proof.
  destruct (slice0_prefix l n) as [m ->]. intros k. apply in_firstn_in.
Qed.

Lemma slice0_length {A : Type} (l : list A) (n : Z) :
  (List.length (slice0 l n) <= List.length l)%nat.
Proof.
  destruct (slice0_prefix l n) as [m ->]. rewrite length_firstn. lia.
Qed.

Lemma NoDup_firstn {A : Type} (m : nat) (l : list A) :
  NoDup l -> NoDup (firstn m l).
Proof.
  revert l. induction m as [|m IH]; intros [|x l] H; simpl; try constructor.
  - inversion H as [|? ? Hx Hl]; subst. intros Hin. apply Hx.
    eapply in_firstn_in; eauto.
  - inversion H; subst. now apply IH.
Qed.

Lemma apply_startAfter_length (sa : option string) (l : list string) :
  (List.length (apply_startAfter sa l) <= List.length l)%nat.
Proof.
  destruct sa as [s|]; simpl; [|lia].
  destruct (nonempty s); [apply filter_length_le|lia].
Qed.

Lemma apply_startAfter_NoDup (sa : option string) (l : list string) :
  NoDup l -> NoDup (apply_startAfter sa l).
Proof.
  intros H. destruct sa as [s|]; simpl; [|exact H].
  destruct (nonempty s); [now apply NoDup_filter|exact H].
Qed.

(** X1: [listPath] never invents a key: what it yields are own keys of the
    node at the path, no more of them than the node has, and without
    repetition when the node has none. *)
Theorem listPath_yields_own_keys (n : Z) (sa : option string)
    (timeout : option Z) (ks : list string) :
  listPath self latency path n sa timeout = Resolved ks ->
  incl ks (own_keys self path)
  /\ (List.length ks <= List.length (own_keys self path))%nat
  /\ (NoDup (own_keys self path) -> NoDup ks).
Proof.
  rewrite listPath_unfold.
  destruct (timed_out latency timeout); [discriminate|].
  intros H. injection H as <-. split; [|split].
  - eapply incl_tran; [apply slice0_incl|apply apply_startAfter_incl].
  - etransitivity; [apply slice0_length|apply apply_startAfter_length].
  - intros Hnd.
    destruct (slice0_prefix (apply_startAfter sa (own_keys self path)) n)
      as [m ->].
    now apply NoDup_firstn, apply_startAfter_NoDup.
Qed.

(** X2: asking for fewer children yields a prefix of what asking for more
    yields. *)
Theorem listPath_smaller_limit_is_prefix (n n' : Z) (sa : option string)
    (timeout : option Z) (ks' : list string) :
  0 <= n <= n' ->
  listPath self latency path n' sa timeout = Resolved ks' ->
  listPath self latency path n sa timeout
    = Resolved (firstn (Z.to_nat n) ks').
Proof.
  intros Hn. rewrite !listPath_unfold.
  destruct (timed_out latency timeout); [discriminate|].
  intros H. injection H as <-. f_equal.
  rewrite !slice0_nonneg by lia. rewrite firstn_firstn. f_equal. lia.
Qed.

(** X3: a limit that is at least the number of children does not cut: the
    call yields every key after the cursor, and every key when there is no
    cursor. *)
Theorem listPath_large_limit_yields_all (n : Z) (sa : option string) :
  Z.of_nat (List.length (own_keys self path)) <= n ->
  listPath self latency path n sa None
    = Resolved (apply_startAfter sa (own_keys self path))
  /\ listPath self latency path n None None = Resolved (own_keys self path).
Proof.
  intros Hn. rewrite !listPath_unfold. cbn [timed_out].
  pose proof (apply_startAfter_length sa (own_keys self path)).
  rewrite !slice0_nonneg by lia. rewrite !firstn_all2; auto.
  - cbn [apply_startAfter]. lia.
  - lia.
Qed.

(** X4: resuming after a key: when the node lists its keys in strictly
    increasing order, a call whose cursor is one of the keys yields the keys
    listed after it, up to the limit. *)
Theorem listPath_resumes_after_key (n : Z) (c : string)
    (done rest : list string) :
  0 <= n -> c <> "" ->
  own_keys self path = done ++ c :: rest ->
  strictly_increasing (own_keys self path) ->
  listPath self latency path n (Some c) None
    = Resolved (firstn (Z.to_nat n) rest).
Proof.
  intros Hn Hc Hkeys Hs. rewrite listPath_unfold. cbn [timed_out].
  rewrite slice0_nonneg by lia. f_equal. f_equal.
  cbn [apply_startAfter]. apply nonempty_true in Hc. rewrite Hc.
  rewrite Hkeys in *.
  change (done ++ c :: rest) with (done ++ [c] ++ rest) in *.
  rewrite app_assoc in *. apply filter_after_last; [exact Hs|].
  rewrite last_key_app. reflexivity.
Qed.

End ListingMore.

Lemma listPath_yields_own_keys_witness :
  incl ["3"; "4"] (own_keys fakeDb "/")
  /\ (List.length ["3"; "4"] <= List.length (own_keys fakeDb "/"))%nat
  /\ (NoDup (own_keys fakeDb "/") -> NoDup ["3"; "4"]).
Proof.
  apply (listPath_yields_own_keys fakeDb 0 "/" 4 (Some "2") None).
  reflexivity.
Defined.

Lemma listPath_smaller_limit_is_prefix_witness :
  listPath fakeDb 0 "/" 1 (Some "2") None
    = Resolved (firstn (Z.to_nat 1) ["3"; "4"]).
Proof.
  apply (listPath_smaller_limit_is_prefix fakeDb 0 "/" 1 3); [lia|].
  reflexivity.
Defined.

Lemma listPath_large_limit_yields_all_witness :
  listPath fakeDb 0 "/" 9 (Some "1") None
    = Resolved (apply_startAfter (Some "1") (own_keys fakeDb "/"))
  /\ listPath fakeDb 0 "/" 9 None None = Resolved (own_keys fakeDb "/").
Proof.
  apply listPath_large_limit_yields_all. vm_compute. discriminate.
Defined.

Lemma listPath_resumes_after_key_witness :
  listPath fakeDb 0 "/" 1 (Some "2") None
    = Resolved (firstn (Z.to_nat 1) ["3"; "4"]).
Proof.
  apply (listPath_resumes_after_key fakeDb 0 "/" 1 "2" ["1"]).
  - lia.
  - discriminate.
  - reflexivity.
  - unfold strictly_increasing.
    change (own_keys fakeDb "/") with ["1"; "2"; "3"; "4"].
    repeat constructor.
Defined.

(** ** More on resolving a path *)

Module PathMore.
Import JsString JsStringFacts PathFacts.

Lemma dataAtpath_extend {realm : Realm}
    (self : FakeListRemote) (p y : string) :
  _dataAtpath self (p ++ "/" ++ y)
    = fold_left descend (split y) (_dataAtpath self p).
Proof.
  unfold _dataAtpath. destruct p as [|c x].
  - cbn [append slice1 split fold_left].
    now rewrite descend_empty_segment.
  - cbn [append slice1]. rewrite split_app. apply fold_left_app.
Qed.

Lemma fold_descend_falsy {realm : Realm}
    (segs : list string) (d : JsVal) :
  truthy d = false -> fold_left descend segs d = d.
Proof.
  intros H. induction segs as [|s segs IH]; [reflexivity|].
  simpl. unfold descend at 2. rewrite H. exact IH.
Qed.

Lemma get_of_key {V : Type} (o : list (string * V)) (k : string) :
  In k (JsObject.keys o) -> exists v, JsObject.get o k = Some v.
Proof.
  induction o as [|[k' v'] o IH]; simpl; [contradiction|].
  destruct (String.eqb_spec k' k) as [->|Hne]; [eauto|].
  intros [H|H]; [contradiction|now apply IH].
Qed.

Lemma get_In {V : Type} (o : list (string * V)) (k : string) (v : V) :
  JsObject.get o k = Some v -> In (k, v) o.
Proof.
  induction o as [|[k' v'] o IH]; simpl; [discriminate|].
  destruct (String.eqb_spec k' k) as [->|Hne].
  - intros H. injection H as ->. now left.
  - intros H. right. now apply IH.
Qed.

Lemma descend_child {realm : Realm}
    (o : list (string * Node)) (k : string) (child : Node) :
  nonempty k = true -> JsObject.get o k = Some child ->
  descend (JNode (Internal o)) k = JNode child.
Proof. intros Hk Hget. unfold descend. cbn. now rewrite Hk, Hget. Qed.

(** Off the tree, a walk stays off the tree. *)
Lemma fold_descend_off_tree {realm : Realm} (segs : list string) (d : JsVal) :
  (forall t, d <> JNode t) ->
  forall t, fold_left descend segs d <> JNode t.
Proof.
  revert d. induction segs as [|s segs IH]; intros d Hd; [exact Hd|].
  cbn [fold_left]. apply IH. intros t.
  unfold descend. destruct (truthy d && nonempty s); [|apply Hd].
  destruct d as [| |n|b]; try discriminate.
  - exfalso. now apply (Hd n).
  - destruct (builtin_is_number b); [discriminate|].
    destruct (builtin_get b s); discriminate.
Qed.

End PathMore.

(** X5: listing below a path is listing in the subtree found at that path:
    when [p] holds the node [t], the call on [p/y] on the whole tree is the
    call on [/y] on a database made of [t]. *)
Theorem listPath_in_subtree {realm : Realm}
    (self : FakeListRemote) (latency : Z)
    (p y : string) (t : Node) (n : Z) (sa : option string)
    (timeout : option Z) :
  _dataAtpath self p = JNode t ->
  listPath self latency (p ++ "/" ++ y) n sa timeout
    = listPath (constructor t) latency ("/" ++ y) n sa timeout.
Proof.
  intros Hp. rewrite !listPath_unfold. unfold own_keys.
  rewrite PathMore.dataAtpath_extend, Hp.
  unfold _dataAtpath at 1. reflexivity.
Qed.

Lemma listPath_in_subtree_witness :
  listPath nestedDb 0 ("/a" ++ "/" ++ "b") 4 None None
    = listPath
        (constructor
           (Internal (JsObject.literal [("b", Leaf 1); ("c", Leaf 0)])))
        0 ("/" ++ "b") 4 None None.
Proof.
  apply listPath_in_subtree. reflexivity.
Defined.

(** X6: a key listed under a node of the tree names a child: when [p]
    holds an object of the tree and a call on [p] yields the key [k], and
    [k] is not empty and holds no slash, then [k] is a property of that
    object and [p/k] resolves to the node stored under it. *)
Theorem listed_key_is_addressable {realm : Realm}
    (self : FakeListRemote) (latency : Z)
    (p : string) (n : Z) (sa : option string) (timeout : option Z)
    (ks : list string) (k : string) (o : list (string * Node)) :
  _dataAtpath self p = JNode (Internal o) ->
  listPath self latency p n sa timeout = Resolved ks ->
  In k ks -> k <> "" -> JsString.slash_free k = true ->
  exists child,
    JsObject.get o k = Some child
    /\ _dataAtpath self (p ++ "/" ++ k) = JNode child.
Proof.
  intros Hp Hlist Hk Hne Hfree.
  destruct (listPath_yields_own_keys self latency p n sa timeout ks Hlist)
    as [Hincl _].
  specialize (Hincl k Hk). unfold own_keys in Hincl. cbn zeta in Hincl.
  rewrite Hp in Hincl. cbn in Hincl.
  destruct (PathMore.get_of_key o k Hincl) as [child Hget].
  exists child. split; [exact Hget|].
  rewrite PathMore.dataAtpath_extend, Hp.
  rewrite (PathFacts.split_single k Hfree). cbn [fold_left].
  apply PathMore.descend_child; [|exact Hget].
  now apply JsStringFacts.nonempty_true.
Qed.

Lemma listed_key_is_addressable_witness :
  exists child,
    JsObject.get [("b", Leaf 1); ("c", Leaf 0)] "b" = Some child
    /\ _dataAtpath nestedDb ("/a" ++ "/" ++ "b") = JNode child.
Proof.
  apply (listed_key_is_addressable nestedDb 0 "/a" 4 None None ["b"; "c"]).
  - reflexivity.
  - reflexivity.
  - simpl. auto.
  - discriminate.
  - reflexivity.
Defined.

(** X7: nothing is listed below a dead end: when what the code finds at a
    path is [undefined], [null] or a number of the tree, no call on a path
    that continues it yields a key. *)
Theorem listPath_below_dead_end_empty {realm : Realm}
    (self : FakeListRemote) (latency : Z)
    (p y : string) (n : Z) (sa : option string) (timeout : option Z) :
  childless (_dataAtpath self p) ->
  yields_no_key self latency (p ++ "/" ++ y) n sa timeout.
Proof.
  intros Hd. unfold yields_no_key. rewrite listPath_unfold.
  destruct (timed_out latency timeout); [reflexivity|].
  assert (Hkeys : own_keys self (p ++ "/" ++ y) = []).
  { unfold own_keys. cbn zeta. rewrite PathMore.dataAtpath_extend.
    apply PathFacts.childless_no_keys.
    now apply PathFacts.fold_descend_childless. }
  now rewrite Hkeys, apply_startAfter_nil, slice0_nil.
Qed.

Lemma listPath_below_dead_end_empty_witness :
  yields_no_key nestedDb 0 ("/a/b" ++ "/" ++ "x/y") 4 None None.
Proof.
  apply listPath_below_dead_end_empty. vm_compute. exact I.
Defined.

(** X8: a path that leads to an inner node lists that node: the keys of the
    call are the node's own keys, after the cursor and up to the limit. *)
Theorem listPath_lists_inner_node {realm : Realm}
    (self : FakeListRemote) (latency : Z)
    (path : string) (o : list (string * Node)) (n : Z)
    (sa : option string) :
  lookup_path (segments path) (data self) = Some (Internal o) ->
  listPath self latency path n sa None
    = Resolved (slice0 (apply_startAfter sa (JsObject.keys o)) n).
Proof.
  intros Hlook. rewrite listPath_unfold. cbn [timed_out].
  unfold own_keys. rewrite PathFacts.dataAtpath_segments.
  pose proof (PathFacts.fold_descend_lookup (segments path) (data self)
                (PathFacts.segments_nonempty path)) as H.
  rewrite Hlook in H. now rewrite H.
Qed.

Lemma listPath_lists_inner_node_witness :
  listPath nestedDb 0 "//a/" 1 None None
    = Resolved (slice0 (apply_startAfter None
                  (JsObject.keys [("b", Leaf 1); ("c", Leaf 0)])) 1).
Proof.
  apply listPath_lists_inner_node. reflexivity.
Defined.

(** X9: paging comes to an end: when the node lists its keys in strictly
    increasing order, none of them empty, and [numChildren] is positive,
    the first pages are full and the page after them is short; with [len]
    keys that is the page of index [len / numChildren]. *)
Theorem paging_ends_with_short_page {realm : Realm}
    (self : FakeListRemote) (latency : Z)
    (path : string) (n : Z) :
  0 < n ->
  strictly_increasing (own_keys self path) ->
  ~ In "" (own_keys self path) ->
  let q := (List.length (own_keys self path) / Z.to_nat n)%nat in
  (forall i, (i < q)%nat ->
             Z.of_nat (List.length (nth_page self latency path n i)) = n)
  /\ Z.of_nat (List.length (nth_page self latency path n q)) < n.
Proof.
  intros Hn Hs Hne q.
  assert (HN : Z.to_nat n <> 0%nat) by lia.
  pose proof (Nat.div_mod_eq (List.length (own_keys self path)) (Z.to_nat n))
    as Hdiv.
  pose proof (Nat.mod_upper_bound (List.length (own_keys self path))
                (Z.to_nat n) HN) as Hmod.
  fold q in Hdiv.
  split.
  - intros i Hi.
    rewrite (nth_page_chunk self latency path n Hn Hs Hne).
    rewrite length_firstn, length_skipn.
    pose proof (Nat.mul_le_mono_r (S i) q (Z.to_nat n) Hi). lia.
  - rewrite (nth_page_chunk self latency path n Hn Hs Hne).
    rewrite length_firstn, length_skipn. lia.
Qed.

Lemma paging_ends_with_short_page_witness :
  let q := (List.length (own_keys fakeDb "/") / Z.to_nat 3)%nat in
  (forall i, (i < q)%nat ->
             Z.of_nat (List.length (nth_page fakeDb 0 "/" 3 i)) = 3)
  /\ Z.of_nat (List.length (nth_page fakeDb 0 "/" 3 q)) < 3.
Proof.
  apply paging_ends_with_short_page.
  - lia.
  - unfold strictly_increasing.
    change (own_keys fakeDb "/") with ["1"; "2"; "3"; "4"].
    repeat constructor.
  - change (own_keys fakeDb "/") with ["1"; "2"; "3"; "4"].
    simpl. intuition discriminate.
Defined.

(** ** Numbers: rounding *)

Module NumberFacts.
Import Number.

Lemma nearest_multiple_cases (u m : Z) :
  nearest_multiple u m = m / u * u \/ nearest_multiple u m = (m / u + 1) * u.
Proof.
  unfold nearest_multiple. cbn zeta.
  destruct (2 * (m mod u) <? u); [now left|].
  destruct (u <? 2 * (m mod u)); [now right|].
  destruct (Z.even (m / u)); [now left|now right].
Qed.

Lemma nearest_multiple_exact (u k : Z) :
  0 < u -> nearest_multiple u (k * u) = k * u.
Proof.
  intros Hu. unfold nearest_multiple. cbn zeta.
  rewrite Z.mod_mul, Z.div_mul by lia.
  destruct (2 * 0 <? u) eqn:E; [reflexivity|]. apply Z.ltb_ge in E. lia.
Qed.

Lemma nearest_multiple_mono (u m m' : Z) :
  0 < u -> m <= m' -> nearest_multiple u m <= nearest_multiple u m'.
Proof.
  intros Hu Hle.
  pose proof (Z.div_mod m u ltac:(lia)) as Hm.
  pose proof (Z.div_mod m' u ltac:(lia)) as Hm'.
  pose proof (Z.mod_pos_bound m u Hu) as Hr.
  pose proof (Z.mod_pos_bound m' u Hu) as Hr'.
  pose proof (Z.div_le_mono m m' u Hu Hle) as Hq.
  destruct (Z.eq_dec (m / u) (m' / u)) as [E|N].
  - unfold nearest_multiple. cbn zeta. rewrite <- E.
    assert (Hrr : m mod u <= m' mod u) by nia.
    destruct (2 * (m mod u) <? u) eqn:A;
      destruct (2 * (m' mod u) <? u) eqn:A';
      destruct (u <? 2 * (m mod u)) eqn:B;
      destruct (u <? 2 * (m' mod u)) eqn:B';
      destruct (Z.even (m / u)); lia.
  - assert (Hq' : m / u + 1 <= m' / u) by lia.
    destruct (nearest_multiple_cases u m) as [->| ->];
      destruct (nearest_multiple_cases u m') as [->| ->]; nia.
Qed.

Lemma pow2_multiple (e k : Z) : 0 <= e <= k -> 2 ^ k = 2 ^ (k - e) * 2 ^ e.
Proof. intros H. rewrite <- Z.pow_add_r by lia. f_equal. lia. Qed.

Lemma log2_bounds (m : Z) : 0 <= m -> m < 2 ^ (Z.log2 m + 1).
Proof.
  intros H. destruct (Z.eq_dec m 0) as [->|N]; [reflexivity|].
  apply Z.log2_spec. lia.
Qed.

(** A power of two that the spacing divides is left where it is, and
    rounding does not go past it. *)
Lemma nearest_multiple_below (e k m : Z) :
  0 <= e <= k -> m <= 2 ^ k -> nearest_multiple (2 ^ e) m <= 2 ^ k.
Proof.
  intros He Hm. assert (Hu : 0 < 2 ^ e) by (apply Z.pow_pos_nonneg; lia).
  rewrite (pow2_multiple e k) by exact He.
  rewrite <- (nearest_multiple_exact (2 ^ e) (2 ^ (k - e))) by exact Hu.
  apply nearest_multiple_mono; [exact Hu|].
  now rewrite <- pow2_multiple.
Qed.

Lemma nearest_multiple_above (e k m : Z) :
  0 <= e <= k -> 2 ^ k <= m -> 2 ^ k <= nearest_multiple (2 ^ e) m.
Proof.
  intros He Hm. assert (Hu : 0 < 2 ^ e) by (apply Z.pow_pos_nonneg; lia).
  rewrite (pow2_multiple e k) by exact He.
  rewrite <- (nearest_multiple_exact (2 ^ e) (2 ^ (k - e))) by exact Hu.
  apply nearest_multiple_mono; [exact Hu|].
  now rewrite <- pow2_multiple.
Qed.

Lemma round_magnitude_mono (m m' : Z) :
  0 <= m -> m <= m' -> round_magnitude m <= round_magnitude m'.
Proof.
  intros H0 Hle. unfold round_magnitude, spacing.
  pose proof (Z.log2_le_mono m m' Hle) as Hk.
  pose proof (Z.log2_nonneg m) as Hk0.
  destruct (Z.eq_dec (Z.max 0 (Z.log2 m - 52)) (Z.max 0 (Z.log2 m' - 52)))
    as [E|N].
  - rewrite E. apply nearest_multiple_mono; [apply Z.pow_pos_nonneg; lia|lia].
  - assert (Hlt : Z.log2 m < Z.log2 m') by lia.
    assert (Hm : m <= 2 ^ Z.log2 m').
    { pose proof (log2_bounds m H0).
      pose proof (Z.pow_le_mono_r 2 (Z.log2 m + 1) (Z.log2 m')
                    ltac:(lia) ltac:(lia)).
      lia. }
    assert (Hm' : 2 ^ Z.log2 m' <= m').
    { apply Z.log2_spec. destruct (Z.eq_dec m' 0) as [Z0|]; [|lia].
      subst m'. simpl in Hlt. lia. }
    apply Z.le_trans with (2 ^ Z.log2 m').
    + apply nearest_multiple_below; [lia|exact Hm].
    + apply nearest_multiple_above; [lia|exact Hm'].
Qed.

(** Up to [2^53] every natural number is a value of the format. *)
Lemma round_magnitude_exact (m : Z) :
  0 <= m <= 2 ^ 53 -> round_magnitude m = m.
Proof.
  intros [H0 H53]. unfold round_magnitude, spacing.
  destruct (Z.eq_dec m (2 ^ 53)) as [->|N].
  - reflexivity.
  - assert (Hk : Z.log2 m <= 52).
    { destruct (Z.eq_dec m 0) as [->|N0]; [simpl; lia|].
      assert (Z.log2 m < 53) by (apply Z.log2_lt_pow2; lia). lia. }
    replace (Z.max 0 (Z.log2 m - 52)) with 0 by lia.
    change (2 ^ 0) with 1.
    pose proof (nearest_multiple_exact 1 m ltac:(lia)) as E.
    now rewrite Z.mul_1_r in E.
Qed.

Lemma round_magnitude_nonneg (m : Z) : 0 <= m -> 0 <= round_magnitude m.
Proof.
  intros H. change 0 with (round_magnitude 0) at 1.
  now apply round_magnitude_mono.
Qed.

(** What rounding gives is a value of the format. *)
Lemma round_magnitude_idempotent (m : Z) :
  0 <= m -> round_magnitude (round_magnitude m) = round_magnitude m.
Proof.
  intros H0. destruct (Z.eq_dec m 0) as [->|N]; [reflexivity|].
  set (k := Z.log2 m). set (e := Z.max 0 (k - 52)).
  assert (Hk0 : 0 <= k) by apply Z.log2_nonneg.
  assert (Hspec : 2 ^ k <= m < 2 ^ (k + 1)) by (apply Z.log2_spec; lia).
  assert (Hu : 0 < 2 ^ e) by (apply Z.pow_pos_nonneg; unfold e; lia).
  assert (Hv : round_magnitude m = nearest_multiple (2 ^ e) m) by reflexivity.
  assert (Hlo : 2 ^ k <= round_magnitude m).
  { rewrite Hv. apply nearest_multiple_above; [unfold e|]; lia. }
  assert (Hhi : round_magnitude m <= 2 ^ (k + 1)).
  { rewrite Hv. apply nearest_multiple_below; [unfold e|]; lia. }
  assert (Hmul : exists j, round_magnitude m = j * 2 ^ e).
  { rewrite Hv.
    destruct (nearest_multiple_cases (2 ^ e) m) as [->| ->]; eauto. }
  destruct Hmul as [j Hj].
  destruct (Z.eq_dec (round_magnitude m) (2 ^ (k + 1))) as [E|NE].
  - rewrite E. unfold round_magnitude at 1. unfold spacing.
    rewrite Z.log2_pow2 by lia.
    set (e' := Z.max 0 (k + 1 - 52)).
    rewrite (pow2_multiple e' (k + 1)) by (unfold e'; lia).
    apply nearest_multiple_exact. apply Z.pow_pos_nonneg; unfold e'; lia.
  - assert (Hlog : Z.log2 (round_magnitude m) = k).
    { apply Z.log2_unique; lia. }
    unfold round_magnitude at 1. unfold spacing. rewrite Hlog.
    fold e. rewrite Hj. now apply nearest_multiple_exact.
Qed.

Lemma overflow_large : 2 ^ 53 < overflow.
Proof. unfold overflow. apply Z.pow_lt_mono_r; lia. Qed.

Lemma of_Z_nonneg (z : Z) :
  0 <= z ->
  of_Z z = if overflow <=? round_magnitude z then PosInfinity
           else Finite (round_magnitude z).
Proof.
  intros H. unfold of_Z. cbn zeta. rewrite Z.abs_eq by exact H.
  destruct (overflow <=? round_magnitude z).
  - destruct (z <? 0) eqn:E; [apply Z.ltb_lt in E; lia|reflexivity].
  - destruct (Z.eq_dec z 0) as [->|N]; [reflexivity|].
    rewrite Z.sgn_pos by lia. now rewrite Z.mul_1_l.
Qed.

Lemma of_Z_exact (z : Z) : 0 <= z <= 2 ^ 53 -> of_Z z = Finite z.
Proof.
  intros H. rewrite of_Z_nonneg by lia.
  rewrite round_magnitude_exact by exact H.
  pose proof overflow_large.
  destruct (overflow <=? z) eqn:E; [apply Z.leb_le in E; lia|reflexivity].
Qed.

Lemma of_Z_natural (z : Z) : 0 <= z -> natural (of_Z z).
Proof.
  intros H. rewrite of_Z_nonneg by exact H.
  destruct (overflow <=? round_magnitude z); [exact I|].
  split; [now apply round_magnitude_nonneg
         |now apply round_magnitude_idempotent].
Qed.

Lemma of_Z_mono (a b : Z) : 0 <= a -> a <= b -> le (of_Z a) (of_Z b).
Proof.
  intros H0 Hle. rewrite !of_Z_nonneg by lia.
  pose proof (round_magnitude_mono a b H0 Hle) as Hr. unfold le.
  destruct (overflow <=? round_magnitude a) eqn:A;
    destruct (overflow <=? round_magnitude b) eqn:B; cbn [leb];
    try reflexivity.
  - apply Z.leb_le in A. apply Z.leb_gt in B. lia.
  - now apply Z.leb_le.
Qed.

Lemma le_refl (x : t) : natural x -> le x x.
Proof.
  destruct x; cbn [natural]; intros H; try contradiction; unfold le;
    cbn [leb]; [apply Z.leb_refl|reflexivity].
Qed.

Lemma le_trans (x y z : t) : le x y -> le y z -> le x z.
Proof.
  unfold le. destruct x, y, z; cbn [leb]; try discriminate; try reflexivity.
  rewrite !Z.leb_le. lia.
Qed.

Lemma zero_le (x : t) : natural x -> le (Finite 0) x.
Proof.
  destruct x; cbn [natural]; intros H; try contradiction; unfold le;
    cbn [leb]; [apply Z.leb_le; lia|reflexivity].
Qed.

Lemma add_natural (x y : t) : natural x -> natural y -> natural (add x y).
Proof.
  destruct x as [a| | |], y as [b| | |]; cbn [natural add];
    try contradiction; try (intros; exact I).
  intros [Ha _] [Hb _]. apply of_Z_natural. lia.
Qed.

Lemma le_add_l (x y : t) : natural x -> natural y -> le x (add x y).
Proof.
  destruct x as [a| | |], y as [b| | |]; cbn [natural add];
    try contradiction; try (intros; reflexivity).
  intros [Ha Hra] [Hb _].
  pose proof (of_Z_mono a (a + b) Ha ltac:(lia)) as H.
  rewrite (of_Z_nonneg a Ha), Hra in H.
  destruct (overflow <=? a); [|exact H].
  unfold le in *. destruct (of_Z (a + b)); cbn [leb] in *;
    try discriminate; reflexivity.
Qed.

Lemma le_add_r (x y : t) : natural x -> natural y -> le y (add x y).
Proof.
  destruct x as [a| | |], y as [b| | |]; cbn [natural add];
    try contradiction; try (intros; reflexivity).
  intros [Ha _] [Hb Hrb].
  pose proof (of_Z_mono b (a + b) Hb ltac:(lia)) as H.
  rewrite (of_Z_nonneg b Hb), Hrb in H.
  destruct (overflow <=? b); [|exact H].
  unfold le in *. destruct (of_Z (a + b)); cbn [leb] in *;
    try discriminate; reflexivity.
Qed.

Lemma add_exact (a b : Z) :
  0 <= a -> 0 <= b -> a + b <= 2 ^ 53 ->
  add (Finite a) (Finite b) = Finite (a + b).
Proof. intros Ha Hb H. cbn [add]. apply of_Z_exact. lia. Qed.

End NumberFacts.

(** ** The size of a subtree *)

Module SizeFacts.
Import PathFacts PathMore.

Lemma Node_induction (P : Node -> Prop) :
  (forall n, P (Leaf n)) ->
  (forall o, Forall (fun kv => P (snd kv)) o -> P (Internal o)) ->
  forall t, P t.
Proof.
  intros Hleaf Hint. fix IH 1. intros [n|o]; [apply Hleaf|].
  apply Hint. induction o as [|[k child] o IHo]; constructor.
  - apply IH.
  - exact IHo.
Qed.

Lemma nonneg_internal (o : list (string * Node)) :
  nonneg_leaves (Internal o) = true <->
  Forall (fun kv => nonneg_leaves (snd kv) = true) o.
Proof.
  cbn [nonneg_leaves]. rewrite forallb_forall, Forall_forall.
  split; intros H [k child] Hin; apply (H (k, child) Hin).
Qed.

(** *** The sum of the leaves *)

Lemma total_internal (o : list (string * Node)) :
  leaf_total (Internal o) = fold_left total_step o 0.
Proof. reflexivity. Qed.

Lemma fold_total_acc (o : list (string * Node)) (a : Z) :
  fold_left total_step o a = a + fold_left total_step o 0.
Proof.
  revert a. induction o as [|kv o IH]; intros a; cbn [fold_left]; [lia|].
  rewrite (IH (total_step a kv)), (IH (total_step 0 kv)).
  unfold total_step. lia.
Qed.

Lemma total_cons (k : string) (child : Node) (o : list (string * Node)) :
  leaf_total (Internal ((k, child) :: o))
  = leaf_total child + leaf_total (Internal o).
Proof.
  rewrite !total_internal. cbn [fold_left]. rewrite fold_total_acc.
  reflexivity.
Qed.

Lemma total_nonneg (t : Node) : nonneg_leaves t = true -> 0 <= leaf_total t.
Proof.
  induction t as [n|o IH] using Node_induction; intros H.
  - simpl in *. lia.
  - apply nonneg_internal in H.
    induction o as [|[k child] o IHo]; [simpl; lia|].
    inversion IH as [|? ? Hc Ho]; subst. inversion H as [|? ? Hc' Ho']; subst.
    rewrite total_cons. simpl in Hc, Hc'.
    specialize (Hc Hc'). specialize (IHo Ho Ho'). lia.
Qed.

Lemma total_perm (o o' : list (string * Node)) :
  Permutation o o' -> leaf_total (Internal o) = leaf_total (Internal o').
Proof.
  induction 1 as [|[k c] l l' _ IH|[k1 c1] [k2 c2] l|l l' l'' _ IH1 _ IH2].
  - reflexivity.
  - rewrite !total_cons. lia.
  - rewrite !total_cons. lia.
  - congruence.
Qed.

(** *** The size, rounded as the source rounds it *)

Lemma size_internal (o : list (string * Node)) :
  _size (Internal o) = fold_left size_step o (Number.Finite 0).
Proof. reflexivity. Qed.

Lemma zero_natural : Number.natural (Number.Finite 0).
Proof. split; [lia|reflexivity]. Qed.

(** The loop of [_size] over entries whose sizes are not negative: the sum
    never decreases. *)
Lemma fold_size_natural (o : list (string * Node)) (a : Number.t) :
  Number.natural a ->
  Forall (fun kv => Number.natural (_size (snd kv))) o ->
  Number.natural (fold_left size_step o a)
  /\ Number.le a (fold_left size_step o a).
Proof.
  revert a. induction o as [|[k child] o IH]; intros a Ha Ho.
  - split; [exact Ha|now apply NumberFacts.le_refl].
  - inversion Ho as [|? ? Hc Ho']; subst. cbn [snd] in Hc.
    cbn [fold_left]. unfold size_step at 2 4.
    destruct (IH (Number.add a (_size child))
                (NumberFacts.add_natural _ _ Ha Hc) Ho') as [Hn Hle].
    split; [exact Hn|].
    eapply NumberFacts.le_trans; [|exact Hle].
    now apply NumberFacts.le_add_l.
Qed.

Lemma size_natural (t : Node) :
  nonneg_leaves t = true -> Number.natural (_size t).
Proof.
  induction t as [n|o IH] using Node_induction; intros H.
  - cbn [_size]. apply NumberFacts.of_Z_natural. simpl in H. lia.
  - apply nonneg_internal in H. rewrite size_internal.
    apply fold_size_natural; [exact zero_natural|].
    rewrite Forall_forall in *. intros kv Hin. now apply IH, H.
Qed.

Lemma sizes_natural (o : list (string * Node)) :
  nonneg_leaves (Internal o) = true ->
  Forall (fun kv => Number.natural (_size (snd kv))) o.
Proof.
  intros H. apply nonneg_internal in H. rewrite Forall_forall in *.
  intros kv Hin. now apply size_natural, H.
Qed.

Lemma fold_child_le (o : list (string * Node)) (a : Number.t)
    (k : string) (child : Node) :
  Number.natural a ->
  Forall (fun kv => Number.natural (_size (snd kv))) o ->
  In (k, child) o ->
  Number.le (_size child) (fold_left size_step o a).
Proof.
  revert a. induction o as [|[k' c'] o IH]; intros a Ha Ho Hin;
    [contradiction|].
  inversion Ho as [|? ? Hc Ho']; subst. cbn [snd] in Hc.
  cbn [fold_left]. unfold size_step at 2.
  pose proof (NumberFacts.add_natural _ _ Ha Hc) as Hacc.
  destruct Hin as [E|Hin].
  - injection E as -> ->.
    eapply NumberFacts.le_trans;
      [|exact (proj2 (fold_size_natural o _ Hacc Ho'))].
    now apply NumberFacts.le_add_r.
  - now apply IH.
Qed.

Lemma child_size_le (o : list (string * Node)) (k : string) (child : Node) :
  nonneg_leaves (Internal o) = true -> In (k, child) o ->
  nonneg_leaves child = true
  /\ Number.le (_size child) (_size (Internal o)).
Proof.
  intros H Hin. split.
  - apply nonneg_internal in H. rewrite Forall_forall in H.
    exact (H (k, child) Hin).
  - rewrite size_internal.
    apply (fold_child_le o _ k child zero_natural (sizes_natural o H) Hin).
Qed.

(** What [_dataAtpath] holds while it walks is a part of the tree. *)
Lemma walk_size {realm : Realm} (segs : list string) (t t' : Node) :
  nonneg_leaves t = true ->
  fold_left descend segs (JNode t) = JNode t' ->
  nonneg_leaves t' = true /\ Number.le (_size t') (_size t).
Proof.
  revert t. induction segs as [|s segs IH]; intros t Ht Hwalk.
  - injection Hwalk as <-.
    split; [exact Ht|now apply NumberFacts.le_refl, size_natural].
  - cbn [fold_left] in Hwalk.
    destruct (JsString.nonempty s) eqn:Hs.
    2:{ rewrite PathFacts.descend_empty_segment in Hwalk by exact Hs.
        now apply IH. }
    destruct t as [z|o].
    + unfold descend in Hwalk. rewrite Hs in Hwalk. cbn [truthy] in Hwalk.
      destruct (negb (z =? 0)); cbn [andb] in Hwalk; [|now apply IH].
      exfalso. revert Hwalk. now apply fold_descend_off_tree.
    + rewrite (PathFacts.descend_object o s Hs) in Hwalk.
      destruct (JsObject.get o s) as [child|] eqn:Hget.
      * apply get_In in Hget.
        destruct (child_size_le o s child Ht Hget) as [Hn Hle].
        destruct (IH child Hn Hwalk) as [Hn' Hle'].
        split; [exact Hn'|]. eapply NumberFacts.le_trans; eauto.
      * exfalso. revert Hwalk. apply fold_descend_off_tree.
        destruct (inherited s); discriminate.
Qed.

(** As long as the sum of the leaves stays within [2^53], no addition of
    the loop is rounded. *)
Lemma fold_size_exact (o : list (string * Node)) (a : Z) :
  0 <= a ->
  Forall (fun kv => nonneg_leaves (snd kv) = true) o ->
  Forall (fun kv => leaf_total (snd kv) <= 2 ^ 53 ->
                    _size (snd kv) = Number.Finite (leaf_total (snd kv))) o ->
  a + leaf_total (Internal o) <= 2 ^ 53 ->
  fold_left size_step o (Number.Finite a)
  = Number.Finite (a + leaf_total (Internal o)).
Proof.
  revert a. induction o as [|[k child] o IH]; intros a Ha Hnn Hex Hmax.
  - cbn. f_equal. lia.
  - inversion Hnn as [|? ? Hc Hnn']; subst.
    inversion Hex as [|? ? Hce Hex']; subst. cbn [snd] in Hc, Hce.
    rewrite total_cons in Hmax |- *.
    pose proof (total_nonneg child Hc) as Hc0.
    pose proof (total_nonneg (Internal o) (proj2 (nonneg_internal o) Hnn'))
      as Ho0.
    cbn [fold_left]. unfold size_step at 2.
    rewrite Hce by lia. rewrite NumberFacts.add_exact by lia.
    rewrite IH by (try assumption; lia). f_equal. lia.
Qed.

Lemma size_exact (t : Node) :
  nonneg_leaves t = true -> leaf_total t <= 2 ^ 53 ->
  _size t = Number.Finite (leaf_total t).
Proof.
  induction t as [n|o IH] using Node_induction; intros Hnn Hmax.
  - cbn [_size leaf_total] in *. apply NumberFacts.of_Z_exact.
    simpl in Hnn. lia.
  - rewrite size_internal.
    rewrite (fold_size_exact o 0); [reflexivity|lia| | |lia].
    + now apply nonneg_internal.
    + apply nonneg_internal in Hnn. rewrite Forall_forall in *.
      intros kv Hin. now apply IH, Hnn.
Qed.

(** Past [2^53] the order of the keys shows: with the large leaf first,
    each 1 added to it is rounded away. *)
Lemma size_depends_on_key_order :
  Permutation
    [("a", Leaf (2 ^ 53)); ("b", Leaf 1); ("c", Leaf 1)]
    [("b", Leaf 1); ("c", Leaf 1); ("a", Leaf (2 ^ 53))]
  /\ _size bigFirst = Number.Finite 9007199254740992
  /\ _size bigLast = Number.Finite 9007199254740994.
Proof.
  split; [|split; vm_compute; reflexivity].
  exact (Permutation_cons_append
           [("b", Leaf 1); ("c", Leaf 1)] ("a", Leaf (2 ^ 53))).
Qed.

End SizeFacts.

(** X10: as long as no sum is rounded, the size of an object does not
    depend on the order of its keys: for entries without negative leaves
    whose leaves add up to at most [2^53], [_size] is that sum, in the
    given order and in any other. *)
Theorem size_ignores_key_order (o o' : list (string * Node)) :
  Permutation o o' ->
  nonneg_leaves (Internal o) = true ->
  leaf_total (Internal o) <= 2 ^ 53 ->
  _size (Internal o) = Number.Finite (leaf_total (Internal o))
  /\ _size (Internal o') = _size (Internal o).
Proof.
  intros Hperm Hnn Hmax.
  pose proof (SizeFacts.total_perm o o' Hperm) as E.
  assert (Hnn' : nonneg_leaves (Internal o') = true).
  { apply SizeFacts.nonneg_internal. apply SizeFacts.nonneg_internal in Hnn.
    eapply Permutation_Forall; eauto. }
  rewrite (SizeFacts.size_exact (Internal o) Hnn Hmax).
  rewrite (SizeFacts.size_exact (Internal o') Hnn') by lia.
  split; [reflexivity|now rewrite E].
Qed.

Lemma size_ignores_key_order_witness :
  _size (Internal [("a", Leaf 2); ("b", Leaf 5)])
  = Number.Finite (leaf_total (Internal [("a", Leaf 2); ("b", Leaf 5)]))
  /\ _size (Internal [("b", Leaf 5); ("a", Leaf 2)])
     = _size (Internal [("a", Leaf 2); ("b", Leaf 5)]).
Proof.
  apply size_ignores_key_order.
  - apply perm_swap.
  - reflexivity.
  - vm_compute. discriminate.
Defined.

(** X11: in a database without negative leaves, what a path holds is never
    larger than the whole database, and no size is negative. *)
Theorem size_at_path_bounded {realm : Realm}
    (self : FakeListRemote) (path : string)
    (t : Node) :
  nonneg_leaves (data self) = true ->
  _dataAtpath self path = JNode t ->
  Number.le (Number.Finite 0) (_size t)
  /\ Number.le (_size t) (_size (data self)).
Proof.
  intros Hnn Hp.
  destruct (SizeFacts.walk_size
              (JsString.split (JsString.slice1 path)) (data self) t Hnn Hp)
    as [Ht Hle].
  split; [now apply NumberFacts.zero_le, SizeFacts.size_natural|exact Hle].
Qed.

Lemma size_at_path_bounded_witness :
  Number.le (Number.Finite 0)
    (_size (Internal (JsObject.literal [("b", Leaf 1); ("c", Leaf 0)])))
  /\ Number.le
       (_size (Internal (JsObject.literal [("b", Leaf 1); ("c", Leaf 0)])))
       (_size (data nestedDb)).
Proof.
  apply (size_at_path_bounded nestedDb "/a"); reflexivity.
Defined.

(** ** The ext:install command: what its runs are like *)

Module ExtInstallFacts.
Import ExtInstall.

Section Facts.

Context {Param Params Response : Type}.
Variable w : @World Param Params Response.

Lemma asFirebaseError_isFirebase (prefix : string) (err : Thrown) :
  isFirebase (asFirebaseError prefix err) = true.
Proof.
  unfold asFirebaseError. destruct (isFirebaseError err) eqn:E; simpl; auto.
Qed.

(** One round of the loop, spelled out. *)
Lemma loop_unfold (fuel attempt : nat) (projectId : string)
    (specRoles : list Role) (instanceId : string) (tr : list Event) :
  serviceAccountLoop w (S fuel) attempt projectId specRoles instanceId tr =
    let tr1 := Call_createServiceAccountAndSetRoles projectId specRoles
                 instanceId :: tr in
    match createServiceAccountAndSetRoles w attempt projectId specRoles
            instanceId with
    | Ok email =>
        if JsString.nonempty email then Some (Ok (instanceId, email), tr1)
        else serviceAccountLoop w fuel (S attempt) projectId specRoles instanceId tr1
    | Throw err =>
        if is_conflict err then
          let suggestion :=
            (instanceId ++ "-" ++ getRandomString w attempt 4)%string in
          let tr2 := Call_promptForValidInstanceId suggestion
                       :: LoggerInfo (message err) :: SpinnerStop :: tr1 in
          match promptForValidInstanceId w attempt suggestion with
          | Ok newId =>
              serviceAccountLoop w fuel (S attempt) projectId specRoles newId
                (SpinnerStart :: tr2)
          | Throw err' => Some (Throw err', tr2)
          end
        else Some (Throw err, tr1)
    end.
Proof.
  cbn [serviceAccountLoop]. unfold bind, try_catch, await, emit, ret, throw.
  destruct (createServiceAccountAndSetRoles w attempt projectId specRoles
              instanceId) as [email|err]; cbn.
  - now destruct (JsString.nonempty email).
  - destruct (is_conflict err); cbn; [|reflexivity].
    destruct (promptForValidInstanceId w attempt _); reflexivity.
Qed.

(** What the loop yields and what it adds to the trace. *)
Lemma loop_result (fuel : nat) :
  forall attempt projectId specRoles instanceId tr r tr',
    serviceAccountLoop w fuel attempt projectId specRoles instanceId tr
      = Some (r, tr') ->
    (forall e, In e tr' -> In e tr \/ isLoopEvent e = true)
    /\ match r with
       | Ok (id, email) =>
           JsString.nonempty email = true
           /\ exists a, createServiceAccountAndSetRoles w a projectId
                          specRoles id = Ok email
       | Throw _ => True
       end.
Proof.
  induction fuel as [|fuel IH]; intros attempt projectId specRoles instanceId
    tr r tr' H; [discriminate|].
  rewrite loop_unfold in H. cbn zeta in H.
  destruct (createServiceAccountAndSetRoles w attempt projectId specRoles
              instanceId) as [email|err] eqn:Hcall.
  - destruct (JsString.nonempty email) eqn:Hemail.
    + injection H as <- <-. split; [|eauto].
      intros e [<-|He]; auto.
    + destruct (IH _ _ _ _ _ _ _ H) as [Hev Hr]. split; [|exact Hr].
      intros e He. destruct (Hev e He) as [[<-|Hin]|Hloop]; auto.
  - destruct (is_conflict err).
    + destruct (promptForValidInstanceId w attempt _) as [newId|err'].
      * destruct (IH _ _ _ _ _ _ _ H) as [Hev Hr]. split; [|exact Hr].
        intros e He.
        destruct (Hev e He) as [[<-|[<-|[<-|[<-|[<-|Hin]]]]]|Hloop]; auto.
      * injection H as <- <-. split; [|exact I].
        intros e [<-|[<-|[<-|[<-|He]]]]; auto.
    + injection H as <- <-. split; [|exact I].
      intros e [<-|He]; auto.
Qed.

(** After [k] conflicts answered by the user and a successful attempt, the
    loop ends with the id of the last answer. *)
Lemma loop_after_conflicts (projectId : string) (specRoles : list Role)
    (firstId : string) (k : nat) (email : string) :
  conflictsThenSuccess w projectId specRoles firstId k email ->
  forall d a fuel tr,
    (a + d = k)%nat -> (d < fuel)%nat ->
    exists tr',
      serviceAccountLoop w fuel a projectId specRoles (idAfter w a firstId) tr
      = Some (Ok (idAfter w k firstId, email), tr').
Proof.
  intros (Hconf & Hok & Hemail).
  induction d as [|d IH]; intros a fuel tr Ha Hfuel;
    (destruct fuel as [|fuel]; [lia|]); rewrite loop_unfold; cbn zeta.
  - assert (a = k) by lia. subst a. rewrite Hok, Hemail. eauto.
  - destruct (Hconf a ltac:(lia)) as (err & newId & Hcall & Hc & Hprompt).
    rewrite Hcall, Hc, Hprompt.
    assert (E : newId = idAfter w (S a) firstId).
    { cbn [idAfter]. now rewrite Hprompt. }
    rewrite E. apply IH; lia.
Qed.

(** The ways the body of [installExtension] can go: a call of the prelude
    throws; or the prelude goes through and the loop throws, or the creation
    of the instance throws, or everything goes through. *)
Lemma body_cases (fuel : nat) (projectId : string) (source : ExtensionSource)
    (paramFilePath : option string) (tr : list Event) (r : Result unit)
    (tr' : list Event) :
  installBody w fuel projectId source paramFilePath tr = Some (r, tr') ->
  let sp := spec source in
  let roleNames := match roles sp with Some rs => map role rs | None => [] end in
  let specRoles := match roles sp with Some rs => rs | None => [] end in
  let specParams := match params sp with Some ps => ps | None => [] end in
  let e1 := Call_checkProjectBilling projectId (shownName sp)
              (billingRequired sp) in
  let e2 := Call_askUserForConsent (shownName sp) projectId roleNames in
  let e3 := Call_getParams projectId paramFilePath in
  let e4 := Call_getValidInstanceId projectId (name sp) in
  (exists err early,
     r = Throw err /\ tr' = early ++ tr
     /\ Forall (fun e => In e [e1; e2; e3; e4]) early)
  \/ exists ps firstId,
       checkProjectBilling w projectId (shownName sp) (billingRequired sp)
         = Ok tt
       /\ askUserForConsent w (shownName sp) projectId roleNames = Ok tt
       /\ getParams w projectId specParams paramFilePath = Ok ps
       /\ getValidInstanceId w projectId (name sp) = Ok firstId
       /\ exists rl trL,
            serviceAccountLoop w fuel 0 projectId specRoles firstId
              (SpinnerStart :: e4 :: e3 :: e2 :: e1 :: tr) = Some (rl, trL)
            /\ match rl with
               | Throw err => r = Throw err /\ tr' = trL
               | Ok (id, email) =>
                   let e5 := Call_createInstance projectId id email in
                   match createInstance w projectId id source ps email with
                   | Throw err => r = Throw err /\ tr' = e5 :: trL
                   | Ok _ =>
                       r = Ok tt
                       /\ exists l1 m1 x l3 m3,
                            tr' = LogLabeledBullet l1 m1 :: x
                                  :: LogLabeledSuccess l3 m3 :: SpinnerStop
                                  :: e5 :: trL
                            /\ ((exists l2 m2, x = LogLabeledBullet l2 m2)
                                \/ exists m2, x = LoggerDebug m2)
                   end
               end.
Proof.
  intros H sp roleNames specRoles specParams e1 e2 e3 e4.
  unfold installBody, bind, await, emit in H. cbn zeta in H.
  fold sp roleNames specRoles specParams e1 e2 e3 e4 in H.
  destruct (checkProjectBilling w projectId (shownName sp)
              (billingRequired sp)) as [[]|err] eqn:H1.
  2:{ injection H as <- <-. left. exists err, [e1].
      split; [reflexivity|]. split; [reflexivity|].
      repeat (apply Forall_cons; [simpl; tauto|]). apply Forall_nil. }
  destruct (askUserForConsent w (shownName sp) projectId roleNames)
    as [[]|err] eqn:H2.
  2:{ injection H as <- <-. left. exists err, [e2; e1].
      split; [reflexivity|]. split; [reflexivity|].
      repeat (apply Forall_cons; [simpl; tauto|]). apply Forall_nil. }
  destruct (getParams w projectId specParams paramFilePath)
    as [ps|err] eqn:H3.
  2:{ injection H as <- <-. left. exists err, [e3; e2; e1].
      split; [reflexivity|]. split; [reflexivity|].
      repeat (apply Forall_cons; [simpl; tauto|]). apply Forall_nil. }
  destruct (getValidInstanceId w projectId (name sp))
    as [firstId|err] eqn:H4.
  2:{ injection H as <- <-. left. exists err, [e4; e3; e2; e1].
      split; [reflexivity|]. split; [reflexivity|].
      repeat (apply Forall_cons; [simpl; tauto|]). apply Forall_nil. }
  right. exists ps, firstId. repeat (split; [reflexivity|]).
  destruct (serviceAccountLoop w fuel 0 projectId specRoles firstId
              (SpinnerStart :: e4 :: e3 :: e2 :: e1 :: tr))
    as [[[[id email]|err] trL]|] eqn:HL; [| |discriminate].
  2:{ injection H as <- <-. exists (Throw err), trL. auto. }
  exists (Ok (id, email)), trL. split; [reflexivity|]. cbn [fst snd] in H.
  cbn zeta.
  destruct (createInstance w projectId id source ps email)
    as [response|err] eqn:H5.
  2:{ injection H as <- <-. auto. }
  destruct (JsString.nonempty _) in H; cbn in H; injection H as <- <-;
    (split; [reflexivity|]); do 5 eexists; (split; [reflexivity|]); eauto.
Qed.

Lemma loop_event_not_prior (e : Event) :
  isLoopEvent e = true ->
  (forall p i m, e <> Call_createInstance p i m)
  /\ e <> Call_promptOnce
  /\ (forall m, e <> Call_promptForOfficialExtension m).
Proof. destruct e; simpl; intros H; try discriminate; repeat split; discriminate. Qed.

(** What [installExtension] adds to the trace holds no prompt of the
    action. *)
Lemma install_adds (fuel : nat) (projectId : string)
    (source : ExtensionSource) (paramFilePath : option string)
    (tr : list Event) (out : Settled) (tr' : list Event) :
  installExtension w fuel projectId source paramFilePath tr = Some (out, tr') ->
  forall e, In e tr' ->
    In e tr \/ (e <> Call_promptOnce
                /\ forall m, e <> Call_promptForOfficialExtension m).
Proof.
  unfold installExtension.
  destruct (installBody w fuel projectId source paramFilePath tr)
    as [[r trB]|] eqn:HB; [|discriminate].
  assert (Hbody : forall e, In e trB ->
            In e tr \/ (e <> Call_promptOnce
                        /\ forall m, e <> Call_promptForOfficialExtension m)).
  { intros e He.
    destruct (body_cases _ _ _ _ _ _ _ HB)
      as [(err & early & -> & -> & Hearly)
         |(ps & firstId & _ & _ & _ & _ & rl & trL & HL & Hrl)].
    - apply in_app_or in He. destruct He as [He|He]; [|now left].
      right. rewrite Forall_forall in Hearly. specialize (Hearly e He).
      simpl in Hearly. intuition (subst; discriminate).
    - destruct (loop_result _ _ _ _ _ _ _ _ HL) as [Hev _].
      assert (HtrL : forall e, In e trL ->
                In e tr \/ (e <> Call_promptOnce
                   /\ forall m, e <> Call_promptForOfficialExtension m)).
      { intros e0 He0. destruct (Hev e0 He0) as [Hin|Hloop].
        - simpl in Hin.
          destruct Hin as [<-|[<-|[<-|[<-|[<-|Hin]]]]]; auto;
            right; split; intros; discriminate.
        - right. apply loop_event_not_prior in Hloop. tauto. }
      destruct rl as [[id email]|err].
      + cbn zeta in Hrl.
        destruct (createInstance w projectId id source ps email).
        * destruct Hrl as (_ & l1 & m1 & x & l3 & m3 & -> & Hx).
          simpl in He.
          destruct He as [<-|[<-|[<-|[<-|[<-|He]]]]]; auto;
            try (right; split; intros; discriminate).
          right. destruct Hx as [(l2 & m2 & ->)|(m2 & ->)];
            split; intros; discriminate.
        * destruct Hrl as [_ ->]. destruct He as [<-|He]; auto.
          right; split; intros; discriminate.
      + destruct Hrl as [_ ->]. auto. }
  destruct r as [u|err]; intros H; injection H as <- <-; [exact Hbody|].
  intros e [<-|He]; [right; split; intros; discriminate|auto].
Qed.

End Facts.

End ExtInstallFacts.

Section ExtInstallRuns.
Import ExtInstall ExtInstallFacts.

Context {Param Params Response : Type}.
Variable w : @World Param Params Response.

(** X12: an instance is created only after the checks: in a run of
    [installExtension], a call of [createInstance] has been preceded by a
    billing check, a consent prompt and a loading of parameters that all
    went through, and it is made for the project, under an instance id for
    which the creation of the service account yielded the truthy e-mail
    passed along. *)
Theorem instance_created_only_after_checks
    (fuel : nat) (projectId : string) (source : ExtensionSource)
    (paramFilePath : option string) (out : Settled) (tr' : list Event)
    (p id email : string) :
  installExtension w fuel projectId source paramFilePath [] = Some (out, tr') ->
  In (Call_createInstance p id email) tr' ->
  let sp := spec source in
  let roleNames := match roles sp with Some rs => map role rs | None => [] end in
  let specRoles := match roles sp with Some rs => rs | None => [] end in
  let specParams := match params sp with Some ps => ps | None => [] end in
  p = projectId
  /\ checkProjectBilling w projectId (shownName sp) (billingRequired sp)
     = Ok tt
  /\ askUserForConsent w (shownName sp) projectId roleNames = Ok tt
  /\ (exists ps, getParams w projectId specParams paramFilePath = Ok ps)
  /\ JsString.nonempty email = true
  /\ exists attempt,
       createServiceAccountAndSetRoles w attempt projectId specRoles id
       = Ok email.
Proof.
  unfold installExtension.
  destruct (installBody w fuel projectId source paramFilePath [])
    as [[r trB]|] eqn:HB; [|discriminate].
  intros Hout Hin.
  assert (HinB : In (Call_createInstance p id email) trB).
  { destruct r; injection Hout as <- <-; [exact Hin|].
    destruct Hin as [E|Hin]; [discriminate|exact Hin]. }
  clear Hout Hin.
  destruct (body_cases w _ _ _ _ _ _ _ HB)
    as [(err & early & -> & -> & Hearly)
       |(ps & firstId & H1 & H2 & H3 & H4 & rl & trL & HL & Hrl)].
  - rewrite app_nil_r in HinB. rewrite Forall_forall in Hearly.
    specialize (Hearly _ HinB). simpl in Hearly.
    intuition discriminate.
  - destruct (loop_result w _ _ _ _ _ _ _ _ HL) as [Hev Hr].
    assert (HtrL : ~ In (Call_createInstance p id email) trL).
    { intros Hc. destruct (Hev _ Hc) as [Hpre|Hloop]; [|discriminate].
      simpl in Hpre. intuition discriminate. }
    destruct rl as [[id' email']|err]; [|destruct Hrl as [_ ->]; contradiction].
    cbn zeta in Hrl. destruct Hr as [Hemail [attempt Hcall]].
    assert (E : Call_createInstance p id email
                = Call_createInstance projectId id' email').
    { destruct (createInstance w projectId id' source ps email').
      - destruct Hrl as (_ & l1 & m1 & x & l3 & m3 & -> & Hx).
        simpl in HinB.
        destruct HinB as [E|[E|[E|[E|[E|Hc]]]]]; try discriminate;
          [|now symmetry|contradiction].
        destruct Hx as [(l2 & m2 & ->)|(m2 & ->)]; discriminate.
      - destruct Hrl as [_ ->].
        destruct HinB as [E|Hc]; [now symmetry|contradiction]. }
    injection E as -> -> ->. eauto 10.
Qed.

(** X13: the spinner is never left turning: when [installExtension] has
    settled, fulfilled or rejected, the last thing done to the spinner is
    stopping it or marking it failed. *)
Theorem spinner_stopped_when_settled
    (fuel : nat) (projectId : string) (source : ExtensionSource)
    (paramFilePath : option string) (tr : list Event) (out : Settled)
    (tr' : list Event) :
  installExtension w fuel projectId source paramFilePath tr = Some (out, tr') ->
  spinning tr' = false.
Proof.
  unfold installExtension.
  destruct (installBody w fuel projectId source paramFilePath tr)
    as [[r trB]|] eqn:HB; [|discriminate].
  destruct r as [u|err]; intros H; injection H as <- <-; [|reflexivity].
  destruct (body_cases w _ _ _ _ _ _ _ HB)
    as [(err & early & E & _)
       |(ps & firstId & _ & _ & _ & _ & rl & trL & HL & Hrl)];
    [discriminate|].
  destruct rl as [[id email]|err]; [|destruct Hrl; discriminate].
  cbn zeta in Hrl. destruct (createInstance w projectId id source ps email).
  - destruct Hrl as (_ & l1 & m1 & x & l3 & m3 & -> & Hx).
    destruct Hx as [(l2 & m2 & ->)|(m2 & ->)]; reflexivity.
  - destruct Hrl; discriminate.
Qed.

(** X14: conflicts are worked around: when the first [k] attempts to create
    the service account meet a conflict (status 409), the user answers each
    prompt, and the attempt after them succeeds, then, the other calls
    going through, [installExtension] is fulfilled and the instance is
    created under the id of the user's last answer. *)
Theorem install_succeeds_after_conflicts
    (fuel : nat) (projectId : string) (source : ExtensionSource)
    (paramFilePath : option string) (tr : list Event)
    (ps : Params) (firstId : string) (k : nat) (email : string)
    (response : Response) :
  let sp := spec source in
  let roleNames := match roles sp with Some rs => map role rs | None => [] end in
  let specRoles := match roles sp with Some rs => rs | None => [] end in
  let specParams := match params sp with Some ps => ps | None => [] end in
  checkProjectBilling w projectId (shownName sp) (billingRequired sp) = Ok tt ->
  askUserForConsent w (shownName sp) projectId roleNames = Ok tt ->
  getParams w projectId specParams paramFilePath = Ok ps ->
  getValidInstanceId w projectId (name sp) = Ok firstId ->
  conflictsThenSuccess w projectId specRoles firstId k email ->
  createInstance w projectId (idAfter w k firstId) source ps email
    = Ok response ->
  (k < fuel)%nat ->
  exists tr',
    installExtension w fuel projectId source paramFilePath tr
      = Some (Completed, tr')
    /\ In (Call_createInstance projectId (idAfter w k firstId) email) tr'.
Proof.
  intros sp roleNames specRoles specParams H1 H2 H3 H4 Hconf H5 Hfuel.
  unfold installExtension, installBody, bind, await, emit. cbn zeta.
  fold sp roleNames specRoles specParams. rewrite H1, H2, H3, H4.
  destruct (loop_after_conflicts w projectId specRoles
              firstId k email Hconf k 0%nat fuel
              (SpinnerStart
               :: Call_getValidInstanceId projectId (name sp)
               :: Call_getParams projectId paramFilePath
               :: Call_askUserForConsent (shownName sp) projectId roleNames
               :: Call_checkProjectBilling projectId (shownName sp)
                    (billingRequired sp) :: tr)
              eq_refl Hfuel) as [trL HL].
  cbn [idAfter] in HL. rewrite HL. cbn [fst snd]. rewrite H5.
  destruct (JsString.nonempty _); cbn; eexists; (split; [reflexivity|]);
    simpl; auto 10.
Qed.

(** X15: what the action is rejected with: an instance of [FirebaseError]
    in every case but two, the errors thrown by [getProjectId] and by the
    prompt for an official extension, which sit before the [try] and come
    out as they were thrown. *)
Theorem action_rejects_with_FirebaseError
    (fuel : nat) (extensionName paramFilePath : option string)
    (tr : list Event) (r : Rejection) (tr' : list Event) :
  action w fuel extensionName paramFilePath tr = Some (Raised r, tr') ->
  isFirebase r = true
  \/ exists err,
       r = Original err
       /\ (getProjectId w = Throw err
           \/ exists msg, promptForOfficialExtension w msg = Throw err).
Proof.
  unfold action. destruct (getProjectId w) as [projectId|err] eqn:Hp.
  2:{ intros H. injection H as <- _. right. eauto. }
  cbn zeta.
  destruct (negb (JsString.nonempty (or_else extensionName ""))) eqn:Hlearn.
  - unfold await at 1.
    destruct (promptForOfficialExtension w _) as [chosen|err] eqn:Hprompt.
    2:{ intros H. injection H as <- _. right. eauto. }
    destruct (chooseSource w chosen true _) as [[[[source|]|err] tr2]|];
      try discriminate.
    + unfold installExtension.
      destruct (installBody w fuel projectId source paramFilePath tr2)
        as [[[u|err] trB]|]; try discriminate.
      intros H. injection H as <- _. left. apply asFirebaseError_isFirebase.
    + intros H. injection H as <- _. left. apply asFirebaseError_isFirebase.
  - unfold ret at 1.
    destruct (chooseSource w _ false _) as [[[[source|]|err] tr2]|];
      try discriminate.
    + unfold installExtension.
      destruct (installBody w fuel projectId source paramFilePath tr2)
        as [[[u|err] trB]|]; try discriminate.
      intros H. injection H as <- _. left. apply asFirebaseError_isFirebase.
    + intros H. injection H as <- _. left. apply asFirebaseError_isFirebase.
Qed.

(** X16: without an extension name nothing is installed unless the user
    confirms: when the name is missing or empty and the confirmation does
    not come back true, the action makes no step of an installation. *)
Theorem no_install_without_confirmation
    (fuel : nat) (extensionName paramFilePath : option string)
    (out : Settled) (tr' : list Event) :
  JsString.nonempty (or_else extensionName "") = false ->
  promptOnce w <> Ok true ->
  action w fuel extensionName paramFilePath [] = Some (out, tr') ->
  forall e, In e tr' -> isInstallStep e = false.
Proof.
  intros Hname Hconfirm. unfold action.
  destruct (getProjectId w) as [projectId|err].
  2:{ intros H. injection H as _ <-. intros e [<-|[]]. reflexivity. }
  cbn zeta. rewrite Hname. cbn [negb]. unfold await at 1.
  destruct (promptForOfficialExtension w _) as [chosen|err].
  2:{ intros H. injection H as _ <-. intros e [<-|[<-|[]]]; reflexivity. }
  unfold chooseSource, bind, await, emit, ret.
  destruct (resolveSource w chosen _) as [sourceUrl|err].
  2:{ intros H. injection H as _ <-.
      intros e [<-|[<-|[<-|[]]]]; reflexivity. }
  destruct (getSource w sourceUrl) as [source|err].
  2:{ intros H. injection H as _ <-.
      intros e [<-|[<-|[<-|[<-|[]]]]]; reflexivity. }
  destruct (promptOnce w) as [[|]|err]; [congruence| |];
    intros H; injection H as _ <-;
    intros e [<-|[<-|[<-|[<-|[<-|[<-|[]]]]]]]; reflexivity.
Qed.

(** X17: with an extension name the action asks neither for a choice of
    extension nor for a confirmation. *)
Theorem named_extension_never_prompts
    (fuel : nat) (extensionName paramFilePath : option string)
    (out : Settled) (tr' : list Event) :
  JsString.nonempty (or_else extensionName "") = true ->
  action w fuel extensionName paramFilePath [] = Some (out, tr') ->
  ~ In Call_promptOnce tr'
  /\ forall msg, ~ In (Call_promptForOfficialExtension msg) tr'.
Proof.
  intros Hname. unfold action.
  assert (Hgoal : forall tr0 : list Event,
            (forall e, In e tr0 ->
               e <> Call_promptOnce
               /\ forall m, e <> Call_promptForOfficialExtension m) ->
            ~ In Call_promptOnce tr0
            /\ forall msg, ~ In (Call_promptForOfficialExtension msg) tr0).
  { intros tr0 H. split; [|intros msg]; intros Hin;
      destruct (H _ Hin) as [H1 H2]; [now apply H1|now apply (H2 msg)]. }
  destruct (getProjectId w) as [projectId|err].
  2:{ intros H. injection H as _ <-. apply Hgoal.
      intros e [<-|[]]. split; intros; discriminate. }
  cbn zeta. rewrite Hname. cbn [negb]. unfold ret at 1.
  unfold chooseSource, bind, await, emit, ret.
  destruct (resolveSource w _ _) as [sourceUrl|err].
  2:{ intros H. injection H as _ <-. apply Hgoal.
      intros e [<-|[<-|[]]]; split; intros; discriminate. }
  destruct (getSource w sourceUrl) as [source|err].
  2:{ intros H. injection H as _ <-. apply Hgoal.
      intros e [<-|[<-|[<-|[]]]]; split; intros; discriminate. }
  intros H. apply Hgoal. intros e He.
  destruct (install_adds w _ _ _ _ _ _ _ H e He) as [Hin|Hok]; [|exact Hok].
  destruct Hin as [<-|[<-|[<-|[]]]]; split; intros; discriminate.
Qed.

End ExtInstallRuns.

Lemma instance_created_only_after_checks_witness :
  "demo" = "demo"
  /\ ExtInstall.checkProjectBilling ExtInstall.sampleWorld "demo" "resize"
       false = ExtInstall.Ok tt
  /\ ExtInstall.askUserForConsent ExtInstall.sampleWorld "resize" "demo"
       ["storage.admin"] = ExtInstall.Ok tt
  /\ (exists ps, ExtInstall.getParams ExtInstall.sampleWorld "demo" [] None
                  = ExtInstall.Ok ps)
  /\ JsString.nonempty "resize-abcd@demo" = true
  /\ exists attempt,
       ExtInstall.createServiceAccountAndSetRoles ExtInstall.sampleWorld
         attempt "demo" [ExtInstall.mkRole "storage.admin"] "resize-abcd"
       = ExtInstall.Ok "resize-abcd@demo".
Proof.
  refine (instance_created_only_after_checks ExtInstall.sampleWorld 5 "demo"
            (ExtInstall.mkSource ExtInstall.sampleSpec) None
            ExtInstall.Completed _ "demo" "resize-abcd" "resize-abcd@demo"
            eq_refl _).
  simpl. auto 10.
Defined.

Lemma spinner_stopped_when_settled_witness :
  exists tr',
    ExtInstall.installExtension ExtInstall.sampleWorld 5 "demo"
      (ExtInstall.mkSource ExtInstall.sampleSpec) None []
    = Some (ExtInstall.Completed, tr')
    /\ ExtInstall.spinning tr' = false.
Proof.
  eexists. split; [vm_compute; reflexivity|].
  exact (spinner_stopped_when_settled ExtInstall.sampleWorld 5 "demo"
           (ExtInstall.mkSource ExtInstall.sampleSpec) None []
           ExtInstall.Completed _ eq_refl).
Defined.

Lemma install_succeeds_after_conflicts_witness :
  exists tr',
    ExtInstall.installExtension ExtInstall.sampleWorld 2 "demo"
      (ExtInstall.mkSource ExtInstall.sampleSpec) None []
    = Some (ExtInstall.Completed, tr')
    /\ In (ExtInstall.Call_createInstance "demo" "resize-abcd"
             "resize-abcd@demo") tr'.
Proof.
  apply (install_succeeds_after_conflicts ExtInstall.sampleWorld 2 "demo"
           (ExtInstall.mkSource ExtInstall.sampleSpec) None [] tt "resize"
           1 "resize-abcd@demo" tt); try reflexivity.
  - split; [|split; reflexivity].
    intros i Hi. assert (i = 0%nat) by lia. subst i.
    exists ExtInstall.conflictError, "resize-abcd". repeat split.
  - lia.
Defined.

Lemma action_rejects_with_FirebaseError_witness :
  exists r tr',
    ExtInstall.action ExtInstall.failingWorld 5 (Some "resize") None []
    = Some (ExtInstall.Raised r, tr')
    /\ (ExtInstall.isFirebase r = true
        \/ exists err,
             r = ExtInstall.Original err
             /\ (ExtInstall.getProjectId ExtInstall.failingWorld
                   = ExtInstall.Throw err
                 \/ exists msg,
                      ExtInstall.promptForOfficialExtension
                        ExtInstall.failingWorld msg = ExtInstall.Throw err)).
Proof.
  do 2 eexists. split; [vm_compute; reflexivity|].
  apply (action_rejects_with_FirebaseError ExtInstall.failingWorld 5
           (Some "resize") None [] _ _ eq_refl).
Defined.

Lemma no_install_without_confirmation_witness :
  exists tr',
    ExtInstall.action ExtInstall.sampleWorld 5 None None []
    = Some (ExtInstall.Completed, tr')
    /\ forall e, In e tr' -> ExtInstall.isInstallStep e = false.
Proof.
  eexists. split; [vm_compute; reflexivity|].
  apply (no_install_without_confirmation ExtInstall.sampleWorld 5 None None
           ExtInstall.Completed).
  - reflexivity.
  - discriminate.
  - reflexivity.
Defined.

Lemma named_extension_never_prompts_witness :
  exists tr',
    ExtInstall.action ExtInstall.sampleWorld 5 (Some "resize") None []
    = Some (ExtInstall.Completed, tr')
    /\ ~ In ExtInstall.Call_promptOnce tr'
    /\ forall msg, ~ In (ExtInstall.Call_promptForOfficialExtension msg) tr'.
Proof.
  eexists. split; [vm_compute; reflexivity|].
  apply (named_extension_never_prompts ExtInstall.sampleWorld 5
           (Some "resize") None ExtInstall.Completed).
  - reflexivity.
  - reflexivity.
Defined.

